(** * Route Optimizer front end: route geometry and presentation state

    A shallow embedding of the two TypeScript sources of the front end,

    - [components/RouteMap.tsx] (the map component: canonical edge keys, the
      colour scale, the node lookup, the edge index, the segment resolver,
      the fuel-price range and the node labels), and
    - [app/page.tsx] (the page: path clean-up for the summary, summary
      backfill, and the fetch handler that commits a response to the state),

    followed by the properties of the specification that are settled on them.

    Modelling conventions.

    - A JavaScript [number] that the code only copies and compares (a
      coordinate, a distance, a price in the node list) is an exact rational
      ([Q]).  The colour scale [getPriceColor] computes with its numbers, and
      takes them as what they are, IEEE 754 binary64 values ([float], with
      the operations of the kernel): its subtraction, division and
      multiplication round, overflow and give [NaN] as JavaScript's do.  The
      map [center], an average of coordinates, is not modelled.
    - A [string] is a Rocq [string]; [a < b] on strings is the lexicographic
      order of [String.ltb], which is JavaScript's order on ASCII identifiers.
    - A JavaScript [Map] is a [gmap]; [get] on a key that is not there is
      [None] ([undefined]).
    - The node lookup is a plain object, and is modelled as one: a read finds
      an own property, or what the prototype chain gives, or [undefined]; an
      assignment to the name [__proto__] sets the prototype.
    - A value that may be [undefined] or [null] is an [option]; reading a
      property of such a value is [member], which throws on [None], so that
      the guards of the source are visible in the model.
    - Code that can throw returns a [JsResult]. *)

From Corelib Require Import PrimFloat.
From Stdlib Require Import QArith Qminmax Ascii.
From stdpp Require Import gmap strings list fin_maps pretty.
Close Scope Q_scope.

(** A decimal literal of [float] denotes the nearest binary64 value, as a
    numeric literal of JavaScript does. *)
Set Warnings "-inexact-float".

(** ** Results of code that may throw *)

Inductive JsResult (A : Type) : Type :=
  | Returned (a : A)
  | Thrown (message : string).
Arguments Returned {A} a.
Arguments Thrown {A} message.

#[global] Instance JsResult_ret : MRet JsResult := λ A a, Returned a.
#[global] Instance JsResult_bind : MBind JsResult := λ A B f m,
  match m with
  | Returned a => f a
  | Thrown msg => Thrown msg
  end.

(** [!!v] is [false] exactly for [undefined]/[null] when [v] is an object. *)
Definition truthy {A : Type} (v : option A) : bool :=
  match v with Some _ => true | None => false end.

(** Evaluating [v.prop]: a [TypeError] when [v] is [undefined]. *)
Definition member {A : Type} (v : option A) : JsResult A :=
  match v with
  | Some a => Returned a
  | None => Thrown "Cannot read properties of undefined"
  end.

(** ** Types shared by the two source files *)

Definition NodeId : Type := string.

(** [type Node = { id; x; y; fuel_price? }]: [x] is the longitude, [y] the
    latitude. *)
Record Node : Type := mkNode {
  node_id : NodeId;
  node_x : Q;
  node_y : Q;
  node_fuel_price : option Q
}.

(** [type Edge = { from_; to; distance; geometry? }]; a geometry point is a
    [[lon, lat]] pair. *)
Record Edge : Type := mkEdge {
  edge_from_ : NodeId;
  edge_to : NodeId;
  edge_distance : Q;
  edge_geometry : option (list (Q * Q))
}.


(** * components/RouteMap.tsx *)

Module RouteMap.

(** [const buildEdgeKey = (a, b) => (a < b ? `${a}|${b}` : `${b}|${a}`)] *)
Definition buildEdgeKey (a b : NodeId) : string :=
  if String.ltb a b then a +:+ "|" +:+ b else b +:+ "|" +:+ a.

(** *** Colour scale *)

(** [Math.min] and [Math.max] of two binary64 numbers: [NaN] when an argument
    is [NaN]; otherwise the smaller (the larger) argument, where [-0] counts
    as smaller than [+0]. *)
Module Math.

Definition min (a b : float) : float :=
  if PrimFloat.is_nan a || PrimFloat.is_nan b then PrimFloat.nan
  else if PrimFloat.ltb a b then a
  else if PrimFloat.ltb b a then b
  else if PrimFloat.is_zero a && PrimFloat.get_sign a then a else b.

Definition max (a b : float) : float :=
  if PrimFloat.is_nan a || PrimFloat.is_nan b then PrimFloat.nan
  else if PrimFloat.ltb a b then b
  else if PrimFloat.ltb b a then a
  else if PrimFloat.is_zero a && negb (PrimFloat.get_sign a) then a else b.

End Math.

(** The CSS colour [hsl(<hue> <saturation>% <lightness>%)].  The source
    builds the text; the model keeps the three numbers, the hue as the
    binary64 value that the template literal prints. *)
Inductive CssColor : Type :=
  | Hsl (hue : float) (saturation lightness : nat).

(** [getPriceColor(price, minPrice, maxPrice)] *)
Definition getPriceColor (price minPrice maxPrice : float) : CssColor :=
  if (maxPrice - minPrice <? 0.001)%float then Hsl 202 75 42
  else
    let normalized :=
      Math.max 0 (Math.min 1 ((price - minPrice) / (maxPrice - minPrice))%float) in
    let hue := (120 - normalized * 120)%float in
    Hsl hue 72 40.

(** *** Node lookup *)

(** What a read [lookup[k]] of the node lookup can give: a node; another
    object or a function (a member of [Object.prototype], or that object
    itself); a string or a number (a field of a node that has become the
    prototype); or [undefined]. *)
Inductive Value : Type :=
  | VNode (n : Node)
  | VObject
  | VString (s : string)
  | VNumber (q : Q)
  | VUndefined.

(** [!!v] *)
Definition truthyValue (v : Value) : bool :=
  match v with
  | VNode _ | VObject => true
  | VString s => negb (bool_decide (s = EmptyString))
  | VNumber q => negb (Qeq_bool q 0)
  | VUndefined => false
  end.

(** The value [v] as the target of a property read [v.prop]: a [TypeError]
    when [v] is [undefined]. *)
Definition object (v : Value) : JsResult Value :=
  match v with
  | VUndefined => Thrown "Cannot read properties of undefined"
  | _ => Returned v
  end.

(** [v.x] and [v.y] of a value that is not [undefined]: the coordinate of a
    node, and [undefined] for every other value, none of which has such a
    property. *)
Definition propX (v : Value) : option Q :=
  match v with VNode n => Some (node_x n) | _ => None end.
Definition propY (v : Value) : option Q :=
  match v with VNode n => Some (node_y n) | _ => None end.

(** A position [[lat, lon]] of a polyline; an entry that was read from a
    value without that property is [undefined]. *)
Definition Position : Type := option Q * option Q.

(** A position with both entries defined. *)
Definition defined (p : Q * Q) : Position := (Some p.1, Some p.2).

(** The names every plain object inherits from [Object.prototype], apart from
    the accessor [__proto__]. *)
Definition objectPrototypeNames : list string :=
  ["constructor"; "hasOwnProperty"; "isPrototypeOf"; "propertyIsEnumerable";
   "toLocaleString"; "toString"; "valueOf";
   "__defineGetter__"; "__defineSetter__";
   "__lookupGetter__"; "__lookupSetter__"].

(** All names a fresh plain object answers to. *)
Definition inheritedNames : list string := "__proto__" :: objectPrototypeNames.

(** The object [lookup]: its own properties, and its prototype when that is
    no longer [Object.prototype] but a node. *)
Record NodeObject : Type := mkNodeObject {
  own : gmap string Node;
  proto : option Node
}.

(** [{}] *)
Definition emptyObject : NodeObject := {| own := ∅; proto := None |}.

(** [lookup[k] = n]: the setter of [__proto__] makes [n] the prototype; any
    other name becomes an own property. *)
Definition assign (k : string) (n : Node) (lookup : NodeObject) : NodeObject :=
  if bool_decide (k = "__proto__")
  then {| own := own lookup; proto := Some n |}
  else {| own := <[k := n]> (own lookup); proto := proto lookup |}.

(** The own property [k] of a node object. *)
Definition nodeProperty (p : Node) (k : string) : option Value :=
  if bool_decide (k = "id") then Some (VString (node_id p))
  else if bool_decide (k = "x") then Some (VNumber (node_x p))
  else if bool_decide (k = "y") then Some (VNumber (node_y p))
  else if bool_decide (k = "fuel_price") then VNumber <$> node_fuel_price p
  else None.

(** The property [k] of [Object.prototype], other than [__proto__]. *)
Definition prototypeProperty (k : string) : Value :=
  if bool_decide (k ∈ objectPrototypeNames) then VObject else VUndefined.

(** [lookup[k]]: the own property; else, along the prototype chain, the
    prototype itself for [__proto__], a field of the node that is the
    prototype, or a member of [Object.prototype]. *)
Definition get (lookup : NodeObject) (k : string) : Value :=
  match own lookup !! k with
  | Some n => VNode n
  | None =>
      match proto lookup with
      | Some p =>
          if bool_decide (k = "__proto__") then VNode p
          else default (prototypeProperty k) (nodeProperty p k)
      | None =>
          if bool_decide (k = "__proto__") then VObject
          else prototypeProperty k
      end
  end.

(** [lookup !! k] is the node that [lookup[k]] gives, if it gives a node. *)
#[global] Instance NodeObject_lookup : Lookup NodeId Node NodeObject :=
  λ k lookup, match get lookup k with VNode n => Some n | _ => None end.

(** [nodes.forEach((n) => { lookup[n.id] = n; })] *)
Definition nodesById (nodes : list Node) : NodeObject :=
  foldl (λ lookup n, assign (node_id n) n lookup) emptyObject nodes.

(** *** Edge polylines and the edge index *)

(** [([lon, lat]) => [lat, lon]] *)
Definition toLatLon (p : Q * Q) : Position := (Some p.2, Some p.1).

(** [[fromNodeData.y, fromNodeData.x], [toNodeData.y, toNodeData.x]] *)
Definition straightLine (fromNodeData toNodeData : Value) : list Position :=
  [(propY fromNodeData, propX fromNodeData);
   (propY toNodeData, propX toNodeData)].

(** [edge.geometry && edge.geometry.length > 0] *)
Definition hasGeometry (edge : Edge) : bool :=
  match edge_geometry edge with
  | Some g => bool_decide (0 < length g)
  | None => false
  end.

(** The [positions] computed for an edge whose two end points passed the
    guard; the same expression occurs in [edgeLines] and in
    [edgeGeometryByKey]. *)
Definition edgePositions (edge : Edge) (fromNodeData toNodeData : Value)
  : list Position :=
  if hasGeometry edge
  then toLatLon <$> default [] (edge_geometry edge)
  else straightLine fromNodeData toNodeData.

Record EdgeLine : Type := mkEdgeLine {
  line_positions : list Position;
  line_distance : Q
}.

(** [edges.map(...).filter(Boolean)]; the guard is
    [if (!fromNodeData || !toNodeData) return null]. *)
Definition edgeLines (nodes : list Node) (edges : list Edge) : list EdgeLine :=
  let byId := nodesById nodes in
  omap (λ edge,
    let fromNodeData := get byId (edge_from_ edge) in
    let toNodeData := get byId (edge_to edge) in
    if negb (truthyValue fromNodeData) || negb (truthyValue toNodeData)
    then None
    else Some {| line_positions := edgePositions edge fromNodeData toNodeData;
                 line_distance := edge_distance edge |}) edges.

(** The value type of the index: [{ from; to; positions }]. *)
Record IndexEntry : Type := mkIndexEntry {
  entry_from : NodeId;
  entry_to : NodeId;
  entry_positions : list Position
}.

(** The record stored by [byKey.set(key, { from: edge.from_, to: edge.to,
    positions })]. *)
Definition entryOf (edge : Edge) (fromNodeData toNodeData : Value) : IndexEntry :=
  {| entry_from := edge_from_ edge;
     entry_to := edge_to edge;
     entry_positions := edgePositions edge fromNodeData toNodeData |}.

(** One iteration of [for (const edge of edges)]; the guard is
    [if (!fromNodeData || !toNodeData) continue]. *)
Definition edgeGeometryStep (byId : NodeObject)
    (byKey : gmap string IndexEntry) (edge : Edge) : gmap string IndexEntry :=
  let fromNodeData := get byId (edge_from_ edge) in
  let toNodeData := get byId (edge_to edge) in
  if negb (truthyValue fromNodeData) || negb (truthyValue toNodeData)
  then byKey
  else
    let key := buildEdgeKey (edge_from_ edge) (edge_to edge) in
    <[key := entryOf edge fromNodeData toNodeData]> byKey.

Definition edgeGeometryByKey (nodes : list Node) (edges : list Edge)
  : gmap string IndexEntry :=
  foldl (edgeGeometryStep (nodesById nodes)) ∅ edges.

(** *** Segment resolver *)

Record Segment : Type := mkSegment {
  seg_key : string;
  seg_from : NodeId;
  seg_to : NodeId;
  seg_positions : list Position
}.

(** [`${from}-${to}-${i}`] *)
Definition segmentKey (from to : NodeId) (i : nat) : string :=
  from +:+ "-" +:+ to +:+ "-" +:+ pretty i.

(** The body of the loop of [buildRouteSegments] at index [i], with
    [from = path[i]] and [to = path[i + 1]]; [continue] returns the array
    as it is, [segments.push] appends. *)
Definition routeSegmentStep (byKey : gmap string IndexEntry)
    (byId : NodeObject) (i : nat) (from to : NodeId)
    (segments : list Segment) : JsResult (list Segment) :=
  if bool_decide (from = to) then Returned segments
  else
    let key := buildEdgeKey from to in
    let edge := byKey !! key in
    if truthy edge then
      e ← member edge;
      let positions :=
        if bool_decide (entry_from e = from) && bool_decide (entry_to e = to)
        then entry_positions e
        else reverse (entry_positions e) in
      Returned (segments ++ [ {| seg_key := segmentKey from to i;
                                 seg_from := from; seg_to := to;
                                 seg_positions := positions |} ])
    else
      let fromNodeData := get byId from in
      let toNodeData := get byId to in
      if negb (truthyValue fromNodeData) || negb (truthyValue toNodeData)
      then Returned segments
      else
        f ← object fromNodeData;
        t ← object toNodeData;
        Returned (segments ++ [ {| seg_key := segmentKey from to i;
                                   seg_from := from; seg_to := to;
                                   seg_positions := straightLine f t |} ]).

(** [for (let i = 0; i < path.length - 1; i++)]: [remaining] counts the
    iterations still to run, [path.length - 1 - i].  Inside the loop both
    [path[i]] and [path[i + 1]] are in range. *)
Fixpoint segmentLoop (byKey : gmap string IndexEntry) (byId : NodeObject)
    (path : list NodeId) (remaining i : nat) (segments : list Segment)
  : JsResult (list Segment) :=
  match remaining with
  | O => Returned segments
  | S remaining' =>
      match path !! i, path !! S i with
      | Some from, Some to =>
          segments' ← routeSegmentStep byKey byId i from to segments;
          segmentLoop byKey byId path remaining' (S i) segments'
      | _, _ => Returned segments
      end
  end.

Definition buildRouteSegments (nodes : list Node) (edges : list Edge)
    (path : list NodeId) : JsResult (list Segment) :=
  if bool_decide (length path < 2) then Returned []
  else segmentLoop (edgeGeometryByKey nodes edges) (nodesById nodes)
         path (length path - 1) 0 [].

(** *** Notions used in the statements *)

(** Both end points of the edge pass the guard of the source: the two reads
    of the node lookup are truthy. *)
Definition known (byId : NodeObject) (edge : Edge) : Prop :=
  truthyValue (get byId (edge_from_ edge)) = true
  ∧ truthyValue (get byId (edge_to edge)) = true.

(** The canonical key of an edge. *)
Definition keyOf (edge : Edge) : string :=
  buildEdgeKey (edge_from_ edge) (edge_to edge).

(** *** The loop, unrolled

    What one iteration appends, and what the whole loop appends from index
    [i] on, as plain lists.  [routeSegmentStep_returns] and
    [segmentLoop_unrolled] below relate them to the loop. *)

Definition emittedFor (byKey : gmap string IndexEntry) (byId : NodeObject)
    (i : nat) (from to : NodeId) : list Segment :=
  match routeSegmentStep byKey byId i from to [] with
  | Returned segments => segments
  | Thrown _ => []
  end.

Fixpoint emittedFrom (byKey : gmap string IndexEntry) (byId : NodeObject)
    (i : nat) (path : list NodeId) : list Segment :=
  match path with
  | [] => []
  | from :: rest =>
      match rest with
      | [] => []
      | to :: _ =>
          emittedFor byKey byId i from to ++ emittedFrom byKey byId (S i) rest
      end
  end.

(** *** Fuel prices and node labels *)

(** [nodes.map((node) => node.fuel_price).filter((price) => typeof price ===
    "number")] *)
Definition fuelValues (nodes : list Node) : list Q := omap node_fuel_price nodes.

(** [{ minFuelPrice, maxFuelPrice }]: both 0 when no node has a price;
    otherwise [Math.min(...values)] and [Math.max(...values)], the least and
    the greatest element of the non-empty array. *)
Definition fuelPriceRange (nodes : list Node) : Q * Q :=
  match fuelValues nodes with
  | [] => (0, 0)%Q
  | value :: values => (foldl Qmin value values, foldl Qmax value values)
  end.

(** [s.includes(c)] for a one-character [c]. *)
Fixpoint includes (c : ascii) (s : string) : bool :=
  match s with
  | EmptyString => false
  | String c' rest => bool_decide (c' = c) || includes c rest
  end.

(** [s.split(sep)[0]] for a one-character [sep]: the text before its first
    occurrence. *)
Fixpoint firstField (sep : ascii) (s : string) : string :=
  match s with
  | EmptyString => EmptyString
  | String c rest =>
      if bool_decide (c = sep) then EmptyString else String c (firstField sep rest)
  end.

(** What [createNodeIcon] puts in the label: the border colour and the city
    name ("city name only, drop state abbr"). *)
Record NodeLabel : Type := mkNodeLabel {
  label_color : string;
  label_cityName : string
}.

Definition createNodeIcon (isOnPath : bool) (label : string) : NodeLabel :=
  {| label_color := if isOnPath then "#0EA5E9" else "#64748B";
     label_cityName :=
       if includes ","%char label then firstField ","%char label else label |}.

(** A segment without its React key. *)
Definition drawn (segment : Segment) : NodeId * NodeId * list Position :=
  (seg_from segment, seg_to segment, seg_positions segment).

(** The same polyline walked the other way. *)
Definition backwards (segment : Segment) : NodeId * NodeId * list Position :=
  (seg_to segment, seg_from segment, reverse (seg_positions segment)).

#[global] Instance known_dec (byId : NodeObject) (edge : Edge) :
  Decision (known byId edge).
Proof. unfold known. apply _. Defined.

End RouteMap.

(** * app/page.tsx *)

Module Page.

Record RouteSummary : Type := mkRouteSummary {
  distance_km : Q;
  fuel_cost : Q
}.

(** [type Route].  [total_distance] and [fuel_cost] are optional here because
    the handler reads them with [?? 0]; [summary] is optional in the source
    type. *)
Record Route : Type := mkRoute {
  route_path : list NodeId;
  route_total_distance : option Q;
  route_fuel_cost : option Q;
  route_objective : Q;
  route_expanded : Q;
  route_notes : option string;
  route_summary : option RouteSummary
}.

Record RouteComparison : Type := mkRouteComparison {
  baseline_fuel_cost : Q;
  optimized_fuel_cost : Q;
  savings_amount : Q;
  savings_percent : Q
}.

(** [type RouteResponse], the parsed JSON body.  [route] is optional because
    the handler reads it with [data.route ?? null]. *)
Record RouteResponse : Type := mkRouteResponse {
  resp_api_version : option string;
  resp_nodes : list Node;
  resp_edges : list Edge;
  resp_route : option Route;
  resp_baseline_path : option (list NodeId);
  resp_comparison : option RouteComparison
}.

(** The [React.useState] cells that [fetchRoute] writes.  [from] and [to] are
    [NodeId] or the empty string. *)
Record PageState : Type := mkPageState {
  nodes : list Node;
  edges : list Edge;
  comparison : option RouteComparison;
  route : option Route;
  baselinePath : list NodeId;
  from : string;
  to : string;
  loading : bool;
  error : option string
}.

(** The initial values of the [useState] calls. *)
Definition initialState : PageState :=
  {| nodes := []; edges := []; comparison := None; route := None;
     baselinePath := []; from := EmptyString; to := EmptyString; loading := false;
     error := None |}.

(** *** The summary path *)

(** [if (cleaned.length === 0 || cleaned[cleaned.length - 1] !== node)
      cleaned.push(node);] *)
Definition pushIfNew (cleaned : list NodeId) (node : NodeId) : list NodeId :=
  if bool_decide (length cleaned = 0)
     || negb (bool_decide (last cleaned = Some node))
  then cleaned ++ [node]
  else cleaned.

(** [summaryPath]: [[]] when [!route?.path?.length], else the loop over
    [route.path]. *)
Definition summaryPath (route : option Route) : list NodeId :=
  match route with
  | None => []
  | Some r =>
      if bool_decide (length (route_path r) = 0) then []
      else foldl pushIfNew [] (route_path r)
  end.

(** *** Summary backfill *)

(** [if (!apiRoute.summary) apiRoute.summary = { distance_km:
    apiRoute.total_distance ?? 0, fuel_cost: apiRoute.fuel_cost ?? 0 }].  The
    assignment mutates the object that [data.route] also names. *)
Definition backfillSummary (apiRoute : Route) : Route :=
  if negb (truthy (route_summary apiRoute)) then
    {| route_path := route_path apiRoute;
       route_total_distance := route_total_distance apiRoute;
       route_fuel_cost := route_fuel_cost apiRoute;
       route_objective := route_objective apiRoute;
       route_expanded := route_expanded apiRoute;
       route_notes := route_notes apiRoute;
       route_summary :=
         Some {| distance_km := default 0%Q (route_total_distance apiRoute);
                 fuel_cost := default 0%Q (route_fuel_cost apiRoute) |} |}
  else apiRoute.

(** *** A handler monad: state cells and exceptions *)

Inductive Exception : Type :=
  | ErrorInstance (message : string)   (* [err instanceof Error] *)
  | OtherValue.

Inductive Completion (A : Type) : Type :=
  | Normal (a : A)
  | Abrupt (e : Exception).
Arguments Normal {A} a.
Arguments Abrupt {A} e.

Definition Handler (A : Type) : Type := PageState → Completion A * PageState.

#[global] Instance Handler_ret : MRet Handler := λ A a s, (Normal a, s).

#[global] Instance Handler_bind : MBind Handler := λ A B k m s,
  match m s with
  | (Normal a, s') => k a s'
  | (Abrupt e, s') => (Abrupt e, s')
  end.

Definition throw {A : Type} (e : Exception) : Handler A := λ s, (Abrupt e, s).

(** [try { body } catch (err) { handler(err) } finally { final }] *)
Definition tryCatchFinally (body : Handler ()) (handler : Exception → Handler ())
    (final : Handler ()) : Handler () :=
  λ s, match body s with
       | (Normal _, s') => final s'
       | (Abrupt e, s') => (handler e ;; final) s'
       end.

(** [if (b) stmt;] *)
Definition when (b : bool) (stmt : Handler ()) : Handler () :=
  if b then stmt else mret ().

(** The state setters. *)
Definition setNodes (v : list Node) : Handler () := λ s,
  (Normal (), {| nodes := v; edges := edges s; comparison := comparison s;
                 route := route s; baselinePath := baselinePath s;
                 from := from s; to := to s; loading := loading s;
                 error := error s |}).
Definition setEdges (v : list Edge) : Handler () := λ s,
  (Normal (), {| nodes := nodes s; edges := v; comparison := comparison s;
                 route := route s; baselinePath := baselinePath s;
                 from := from s; to := to s; loading := loading s;
                 error := error s |}).
Definition setComparison (v : option RouteComparison) : Handler () := λ s,
  (Normal (), {| nodes := nodes s; edges := edges s; comparison := v;
                 route := route s; baselinePath := baselinePath s;
                 from := from s; to := to s; loading := loading s;
                 error := error s |}).
Definition setRoute (v : option Route) : Handler () := λ s,
  (Normal (), {| nodes := nodes s; edges := edges s; comparison := comparison s;
                 route := v; baselinePath := baselinePath s;
                 from := from s; to := to s; loading := loading s;
                 error := error s |}).
Definition setBaselinePath (v : list NodeId) : Handler () := λ s,
  (Normal (), {| nodes := nodes s; edges := edges s; comparison := comparison s;
                 route := route s; baselinePath := v;
                 from := from s; to := to s; loading := loading s;
                 error := error s |}).
Definition setFrom (v : string) : Handler () := λ s,
  (Normal (), {| nodes := nodes s; edges := edges s; comparison := comparison s;
                 route := route s; baselinePath := baselinePath s;
                 from := v; to := to s; loading := loading s;
                 error := error s |}).
Definition setTo (v : string) : Handler () := λ s,
  (Normal (), {| nodes := nodes s; edges := edges s; comparison := comparison s;
                 route := route s; baselinePath := baselinePath s;
                 from := from s; to := v; loading := loading s;
                 error := error s |}).
Definition setLoading (v : bool) : Handler () := λ s,
  (Normal (), {| nodes := nodes s; edges := edges s; comparison := comparison s;
                 route := route s; baselinePath := baselinePath s;
                 from := from s; to := to s; loading := v;
                 error := error s |}).
Definition setError (v : option string) : Handler () := λ s,
  (Normal (), {| nodes := nodes s; edges := edges s; comparison := comparison s;
                 route := route s; baselinePath := baselinePath s;
                 from := from s; to := to s; loading := loading s;
                 error := v |}).

(** *** The fetch handler *)

(** What an awaited promise settles to. *)
Inductive Settled (A : Type) : Type :=
  | Fulfilled (a : A)
  | Rejected (e : Exception).
Arguments Fulfilled {A} a.
Arguments Rejected {A} e.

(** The [Response] of [fetch]: [res.ok], [res.status], and what
    [await res.json()] settles to. *)
Record Response : Type := mkResponse {
  res_ok : bool;
  res_status : nat;
  res_json : Settled RouteResponse
}.

(** The arguments of one call of [fetchRoute]. *)
Record Request : Type := mkRequest {
  useCurrentStartGoal : bool;
  selectedFrom : string;
  selectedTo : string
}.

(** [await p]: the value, or the rejection thrown into the [try]. *)
Definition await {A : Type} (p : Settled A) : Handler A :=
  match p with
  | Fulfilled a => mret a
  | Rejected e => throw e
  end.

(** Evaluating [v.prop] inside the handler: a [TypeError] (an [Error]
    instance) when [v] is [undefined]. *)
Definition readProp {A : Type} (v : option A) : Handler A :=
  match v with
  | Some a => mret a
  | None => throw (ErrorInstance "Cannot read properties of undefined")
  end.

(** The statements of the [try] block from [const data = await res.json()]
    on, for the parsed body [data]. *)
Definition commitResponse (req : Request) (data : RouteResponse) : Handler () :=
  let nodesWithFuel := (λ node : Node, node) <$> resp_nodes data in
  let apiRoute := backfillSummary <$> resp_route data in
  setNodes nodesWithFuel ;;
  setEdges ((λ e, {| edge_from_ := edge_from_ e; edge_to := edge_to e;
                     edge_distance := edge_distance e;
                     edge_geometry := edge_geometry e |}) <$> resp_edges data) ;;
  setRoute apiRoute ;;
  setBaselinePath (default [] (resp_baseline_path data)) ;;
  setComparison (resp_comparison data) ;;
  if negb (useCurrentStartGoal req) then
    dataRoute ← readProp apiRoute;
    when (bool_decide (0 < length (route_path dataRoute)))
      (when (bool_decide (selectedFrom req = EmptyString))
         (setFrom (default EmptyString (head (route_path dataRoute)))) ;;
       when (bool_decide (selectedTo req = EmptyString))
         (setTo (default EmptyString (last (route_path dataRoute)))))
  else mret ().

(** The [try] block once [fetch] has settled. *)
Definition tryBlock (req : Request) (fetched : Settled Response) : Handler () :=
  res ← await fetched;
  (if negb (res_ok res) then
     throw (ErrorInstance ("Request failed with status " +:+ pretty (res_status res)))
   else mret ()) ;;
  data ← await (res_json res);
  commitResponse req data.

(** The [catch (err)] block. *)
Definition catchBlock (err : Exception) : Handler () :=
  setError (Some match err with
                 | ErrorInstance message => message
                 | OtherValue => "Failed to fetch"
                 end) ;;
  setRoute None ;;
  setBaselinePath [].

(** The [finally] block. *)
Definition finallyBlock : Handler () := setLoading false.

(** [fetchRoute] runs in two turns of the event loop.  The first, at the
    call, runs up to [await fetch(...)]: *)
Definition fetchRouteStart (s : PageState) : PageState :=
  ((setLoading true ;; setError None) s).2.

(** The second runs when the request has settled.  (Between
    [await fetch(...)] and [await res.json()] the handler writes no state, so
    the two continuations are taken as one.) *)
Definition fetchRouteSettle (req : Request) (fetched : Settled Response)
    (s : PageState) : PageState :=
  (tryCatchFinally (tryBlock req fetched) catchBlock finallyBlock s).2.

(** Requests interleave only at their [await]s: a run of the page is a
    sequence of turns, each the start or the settling of some request. *)
Inductive Turn : Type :=
  | Issue (req : Request)
  | Settle (req : Request) (fetched : Settled Response).

Definition turn (s : PageState) (t : Turn) : PageState :=
  match t with
  | Issue _ => fetchRouteStart s
  | Settle req fetched => fetchRouteSettle req fetched s
  end.

Definition run (s : PageState) (turns : list Turn) : PageState :=
  foldl turn s turns.

(** *** What the page shows *)

(** The props handed to [<RouteMap>] that come from the fetched state. *)
Record MapProps : Type := mkMapProps {
  prop_nodes : list Node;
  prop_edges : list Edge;
  prop_routePath : list NodeId;
  prop_baselineRoutePath : list NodeId
}.

Definition mapProps (s : PageState) : MapProps :=
  {| prop_nodes := nodes s;
     prop_edges := edges s;
     prop_routePath := default [] (route_path <$> route s);
     prop_baselineRoutePath := baselinePath s |}.

(** The "Route Summary" section: the placeholder when [!route], the route
    details (with the cost comparison, when there is one) when the path is
    not empty, "No path found." otherwise. *)
Inductive SummaryPanel : Type :=
  | Placeholder
  | Details (distance fuel : option Q) (shownComparison : option RouteComparison)
            (legs : nat) (expanded : Q) (chips : list NodeId)
  | NoPathFound.

Definition routeSummaryPanel (s : PageState) : SummaryPanel :=
  match route s with
  | None => Placeholder
  | Some r =>
      if bool_decide (0 < length (route_path r)) then
        Details
          (match route_summary r with
           | Some sm => Some (distance_km sm)
           | None => route_total_distance r
           end)
          (match route_summary r with
           | Some sm => Some (fuel_cost sm)
           | None => route_fuel_cost r
           end)
          (comparison s)
          (length (summaryPath (route s)) - 1)
          (route_expanded r)
          (summaryPath (route s))
      else NoPathFound
  end.

(** *** Notions used in the statements *)

(** The specification's reading of the path clean-up: an identifier is kept
    exactly when it differs from its immediate predecessor in the raw path
    ([prev]; [None] before the first element). *)
Fixpoint keepChanges (prev : option NodeId) (path : list NodeId) : list NodeId :=
  match path with
  | [] => []
  | node :: rest =>
      if bool_decide (prev = Some node) then keepChanges (Some node) rest
      else node :: keepChanges (Some node) rest
  end.

(** The View Model: the five cells that hold fetched data. *)
Record ViewModel : Type := mkViewModel {
  vm_nodes : list Node;
  vm_edges : list Edge;
  vm_route : option Route;
  vm_baselinePath : list NodeId;
  vm_comparison : option RouteComparison
}.

Definition viewModel (s : PageState) : ViewModel :=
  {| vm_nodes := nodes s; vm_edges := edges s; vm_route := route s;
     vm_baselinePath := baselinePath s; vm_comparison := comparison s |}.

(** The content of one response: the arguments of the five setter calls of
    the [try] block. *)
Definition responseContent (data : RouteResponse) : ViewModel :=
  {| vm_nodes := resp_nodes data;
     vm_edges := resp_edges data;
     vm_route := backfillSummary <$> resp_route data;
     vm_baselinePath := default [] (resp_baseline_path data);
     vm_comparison := resp_comparison data |}.

(** A fetch that answered 2xx with the parsed body [data]. *)
Definition answered (status : nat) (data : RouteResponse) : Settled Response :=
  Fulfilled {| res_ok := true; res_status := status; res_json := Fulfilled data |}.

(** A failed fetch: the network request was rejected, or the status is not
    2xx. *)
Definition failedFetch (fetched : Settled Response) : bool :=
  match fetched with
  | Rejected _ => true
  | Fulfilled res => negb (res_ok res)
  end.

(** The message the [catch] block shows for a failed fetch. *)
Definition failureMessage (fetched : Settled Response) : string :=
  match fetched with
  | Rejected (ErrorInstance message) => message
  | Rejected OtherValue => "Failed to fetch"
  | Fulfilled res => "Request failed with status " +:+ pretty (res_status res)
  end.

(** The [try] block runs to its end: the only statement after the setters
    that can throw is the read of [data.route.path]. *)
Definition commits (req : Request) (data : RouteResponse) : Prop :=
  useCurrentStartGoal req = true ∨ is_Some (resp_route data).

(** *** The request, the submit button and the initial fetch *)

(** [type Algorithm = "dijkstra" | "astar" | "greedy"] *)
Inductive Algorithm : Type := dijkstra | astar | greedy.

Definition algorithmName (algorithm : Algorithm) : string :=
  match algorithm with
  | dijkstra => "dijkstra"
  | astar => "astar"
  | greedy => "greedy"
  end.

(** [URLSearchParams.prototype.set]: the first pair with the name gets the
    value and the other pairs with the name are removed; without such a pair
    the new pair is appended. *)
Fixpoint paramsSet (name value : string) (params : list (string * string))
  : list (string * string) :=
  match params with
  | [] => [(name, value)]
  | (n, v) :: rest =>
      if bool_decide (n = name)
      then (name, value) :: filter (λ p, p.1 ≠ name) rest
      else (n, v) :: paramsSet name value rest
  end.

Section Query.
(** [String.prototype.trim], a built-in; the handler only tests its result
    for emptiness. *)
Variable trim : string → string.

(** The search parameters [fetchRoute] builds, before they are encoded into
    the URL. *)
Definition routeQuery (algorithm : Algorithm) (seed : string) (req : Request)
  : list (string * string) :=
  let params := paramsSet "algorithm" (algorithmName algorithm) [] in
  let params :=
    paramsSet "seed"
      (if bool_decide (trim seed = EmptyString) then "42" else trim seed) params in
  if useCurrentStartGoal req
     && negb (bool_decide (selectedFrom req = EmptyString))
     && negb (bool_decide (selectedTo req = EmptyString))
  then paramsSet "goal" (selectedTo req)
         (paramsSet "start" (selectedFrom req) params)
  else params.
End Query.

(** [disabled={loading || !from || !to}] of the submit button. *)
Definition submitDisabled (s : PageState) : bool :=
  loading s || bool_decide (from s = EmptyString)
  || bool_decide (to s = EmptyString).

(** [onSubmit]: [fetchRoute(true, from, to)]. *)
Definition onSubmit (s : PageState) : Request :=
  {| useCurrentStartGoal := true; selectedFrom := from s; selectedTo := to s |}.

(** The effect guarded by the [didInitialFetch] ref: the new value of the ref
    and the calls of [fetchRoute] the run makes. *)
Definition initialFetchEffect (didInitialFetch : bool) : bool * list Request :=
  if didInitialFetch then (didInitialFetch, [])
  else (true, [ {| useCurrentStartGoal := false; selectedFrom := EmptyString;
                   selectedTo := EmptyString |} ]).

(** The effect run once per render in which [fetchRoute] changed. *)
Fixpoint initialFetchEffects (runs : nat) (didInitialFetch : bool)
  : bool * list Request :=
  match runs with
  | O => (didInitialFetch, [])
  | S runs' =>
      let '(ref, calls) := initialFetchEffect didInitialFetch in
      let '(ref', calls') := initialFetchEffects runs' ref in
      (ref', calls ++ calls')
  end.

End Page.

(** * Properties of components/RouteMap.tsx *)

Module RouteMapFacts.
Import RouteMap.

(** ** Canonical keys *)

Lemma ltb_asym (a b : string) : String.ltb a b = true → String.ltb b a = false.
Proof.
  unfold String.ltb. rewrite (String.compare_antisym a b).
  by destruct (String.compare b a).
Qed.

Lemma ltb_total (a b : string) :
  String.ltb a b = false → String.ltb b a = false → a = b.
Proof.
  unfold String.ltb. intros Hab Hba. apply String.compare_eq_iff.
  rewrite (String.compare_antisym b a) in Hba.
  by destruct (String.compare a b).
Qed.

Lemma buildEdgeKey_sym (a b : NodeId) : buildEdgeKey a b = buildEdgeKey b a.
Proof.
  unfold buildEdgeKey.
  destruct (String.ltb a b) eqn:Hab.
  - by rewrite (ltb_asym _ _ Hab).
  - destruct (String.ltb b a) eqn:Hba; [done|].
    by rewrite (ltb_total _ _ Hab Hba).
Qed.

(** ** Reads of the node lookup *)

Lemma lookup_get (byId : NodeObject) (k : NodeId) (n : Node) :
  byId !! k = Some n ↔ get byId k = VNode n.
Proof.
  unfold lookup, NodeObject_lookup.
  destruct (get byId k); split; intros H; by simplify_eq.
Qed.

Lemma lookup_truthy (byId : NodeObject) (k : NodeId) :
  is_Some (byId !! k) → truthyValue (get byId k) = true.
Proof. intros [n Hn]. apply lookup_get in Hn. by rewrite Hn. Qed.

Lemma object_truthy (v : Value) : truthyValue v = true → object v = Returned v.
Proof. by destruct v. Qed.

Lemma guard_passes (f t : Value) :
  truthyValue f = true → truthyValue t = true →
  negb (truthyValue f) || negb (truthyValue t) = false.
Proof. by intros -> ->. Qed.

Lemma guard_skips (f t : Value) :
  truthyValue f = false ∨ truthyValue t = false →
  negb (truthyValue f) || negb (truthyValue t) = true.
Proof. intros [-> | ->]; [done|apply orb_true_r]. Qed.

(** ** The edge index *)

Section EdgeIndex.
Context (byId : NodeObject).

Lemma edgeGeometryStep_known byKey edge :
  known byId edge →
  edgeGeometryStep byId byKey edge
  = <[keyOf edge := entryOf edge (get byId (edge_from_ edge))
                                 (get byId (edge_to edge))]> byKey.
Proof.
  intros [Hf Ht]. unfold edgeGeometryStep. cbn zeta.
  by rewrite guard_passes.
Qed.

Lemma edgeGeometryStep_unknown byKey edge :
  ¬ known byId edge → edgeGeometryStep byId byKey edge = byKey.
Proof.
  intros Hk. unfold edgeGeometryStep. cbn zeta.
  rewrite guard_skips; [done|].
  destruct (truthyValue (get byId (edge_from_ edge))) eqn:Hf; [|by left].
  destruct (truthyValue (get byId (edge_to edge))) eqn:Ht; [|by right].
  by destruct Hk.
Qed.

(** Edges that are dropped or that write another key leave [k] alone. *)
Lemma foldl_step_other (edges : list Edge) byKey k :
  (∀ edge, edge ∈ edges → known byId edge → keyOf edge ≠ k) →
  foldl (edgeGeometryStep byId) byKey edges !! k = byKey !! k.
Proof.
  revert byKey. induction edges as [|edge edges IH]; intros byKey Hother; [done|].
  cbn [foldl]. rewrite IH.
  - destruct (decide (known byId edge)) as [Hk|Hk].
    + rewrite edgeGeometryStep_known by done.
      apply lookup_insert_ne, Hother; [left|done].
    + by rewrite edgeGeometryStep_unknown.
  - intros e He. apply Hother. by right.
Qed.

Lemma foldl_step_last (pre post : list Edge) byKey edge :
  known byId edge →
  (∀ later, later ∈ post → known byId later → keyOf later ≠ keyOf edge) →
  foldl (edgeGeometryStep byId) byKey (pre ++ edge :: post) !! keyOf edge
  = Some (entryOf edge (get byId (edge_from_ edge)) (get byId (edge_to edge))).
Proof.
  intros Hknown Hpost. rewrite foldl_app. cbn [foldl].
  rewrite (foldl_step_other post _ (keyOf edge) Hpost).
  rewrite (edgeGeometryStep_known _ edge Hknown).
  apply lookup_insert_eq.
Qed.

Lemma edgePositions_cases edge f t :
  edgePositions edge f t =
    match edge_geometry edge with
    | Some (p :: g) => toLatLon <$> (p :: g)
    | _ => straightLine f t
    end.
Proof.
  unfold edgePositions, hasGeometry.
  destruct (edge_geometry edge) as [[|p g]|]; done.
Qed.

Lemma lookup_known edge f t :
  byId !! edge_from_ edge = Some f → byId !! edge_to edge = Some t →
  known byId edge.
Proof. intros Hf Ht. split; apply lookup_truthy; by eexists. Qed.
End EdgeIndex.

(** ** The segment resolver *)

Section Resolver.
Context (byKey : gmap string IndexEntry) (byId : NodeObject).

(** An iteration never throws: it returns the array, extended by what it
    emits. *)
Lemma routeSegmentStep_returns i u v segments :
  routeSegmentStep byKey byId i u v segments
  = Returned (segments ++ emittedFor byKey byId i u v).
Proof.
  unfold emittedFor, routeSegmentStep.
  case_bool_decide; [by rewrite app_nil_r|].
  destruct (byKey !! buildEdgeKey u v) as [e|]; cbn; [done|].
  destruct (truthyValue (get byId u)) eqn:Hu;
    [destruct (truthyValue (get byId v)) eqn:Hv|]; cbn;
    rewrite ?app_nil_r; try done.
  by rewrite !object_truthy.
Qed.

Lemma emittedFor_same i u : emittedFor byKey byId i u u = [].
Proof. unfold emittedFor, routeSegmentStep. by rewrite bool_decide_eq_true_2. Qed.

Lemma emittedFor_found i u v e :
  u ≠ v → byKey !! buildEdgeKey u v = Some e →
  emittedFor byKey byId i u v =
    [ {| seg_key := segmentKey u v i; seg_from := u; seg_to := v;
         seg_positions :=
           if bool_decide (entry_from e = u ∧ entry_to e = v)
           then entry_positions e else reverse (entry_positions e) |} ].
Proof.
  intros Hne He. unfold emittedFor, routeSegmentStep.
  rewrite bool_decide_eq_false_2 by done. rewrite He. cbn.
  by rewrite bool_decide_and.
Qed.

Lemma emittedFor_fallback i u v :
  u ≠ v → byKey !! buildEdgeKey u v = None →
  truthyValue (get byId u) = true → truthyValue (get byId v) = true →
  emittedFor byKey byId i u v =
    [ {| seg_key := segmentKey u v i; seg_from := u; seg_to := v;
         seg_positions := straightLine (get byId u) (get byId v) |} ].
Proof.
  intros Hne He Hu Hv. unfold emittedFor, routeSegmentStep.
  rewrite bool_decide_eq_false_2 by done. rewrite He. cbn.
  by rewrite Hu, Hv, !object_truthy.
Qed.

Lemma emittedFor_skip i u v :
  byKey !! buildEdgeKey u v = None →
  truthyValue (get byId u) = false ∨ truthyValue (get byId v) = false →
  emittedFor byKey byId i u v = [].
Proof.
  intros He Hunk. unfold emittedFor, routeSegmentStep.
  case_bool_decide; [done|]. rewrite He. cbn.
  by rewrite guard_skips.
Qed.

(** The loop from index [i] with [remaining] iterations to go. *)
Lemma segmentLoop_unrolled path remaining i segments :
  S i + remaining = length path →
  segmentLoop byKey byId path remaining i segments
  = Returned (segments ++ emittedFrom byKey byId i (drop i path)).
Proof.
  revert i segments.
  induction remaining as [|remaining IH]; intros i segments Hlen; cbn [segmentLoop].
  - destruct (lookup_lt_is_Some_2 path i) as [u Hu]; [lia|].
    rewrite (drop_S _ _ _ Hu), drop_ge by lia. by rewrite app_nil_r.
  - destruct (lookup_lt_is_Some_2 path i) as [u Hu]; [lia|].
    destruct (lookup_lt_is_Some_2 path (S i)) as [v Hv]; [lia|].
    rewrite Hu, Hv, routeSegmentStep_returns. cbn.
    rewrite IH by lia.
    rewrite (drop_S _ _ _ Hu), (drop_S _ _ _ Hv). cbn [emittedFrom].
    by rewrite app_assoc.
Qed.

Lemma emittedFrom_app i pre u v rest :
  emittedFrom byKey byId i (pre ++ u :: v :: rest)
  = emittedFrom byKey byId i (pre ++ [u])
    ++ emittedFor byKey byId (i + length pre) u v
    ++ emittedFrom byKey byId (S (i + length pre)) (v :: rest).
Proof.
  revert i. induction pre as [|a pre IH]; intros i.
  - cbn. by rewrite Nat.add_0_r.
  - cbn [app emittedFrom length].
    destruct pre as [|b pre].
    + cbn. rewrite Nat.add_1_r. by rewrite app_nil_r.
    + specialize (IH (S i)). cbn [app] in IH |- *. rewrite IH.
      rewrite <- app_assoc. by rewrite !Nat.add_succ_r.
Qed.
End Resolver.

Lemma buildRouteSegments_unrolled nodes edges path :
  buildRouteSegments nodes edges path
  = Returned (emittedFrom (edgeGeometryByKey nodes edges) (nodesById nodes) 0 path).
Proof.
  unfold buildRouteSegments. case_bool_decide as Hlen.
  - by destruct path as [|a [|b path]]; cbn in *; [..|lia].
  - rewrite segmentLoop_unrolled by lia. by rewrite drop_0.
Qed.

(** The resolver on the prefix ending at [path[i]], on the prefix ending at
    [path[i + 1]], and on the whole path: the pair at index [i] contributes
    exactly [emittedFor .. i u v], after what the earlier pairs emit. *)
Lemma buildRouteSegments_pair nodes edges path i u v :
  path !! i = Some u → path !! S i = Some v →
  ∃ before after,
    buildRouteSegments nodes edges (take (S i) path) = Returned before ∧
    buildRouteSegments nodes edges (take (S (S i)) path)
    = Returned (before ++ emittedFor (edgeGeometryByKey nodes edges)
                                     (nodesById nodes) i u v) ∧
    buildRouteSegments nodes edges path
    = Returned (before ++ emittedFor (edgeGeometryByKey nodes edges)
                                     (nodesById nodes) i u v ++ after).
Proof.
  intros Hu Hv.
  set (byKey := edgeGeometryByKey nodes edges). set (byId := nodesById nodes).
  assert (Hi : length (take i path) = i).
  { rewrite length_take. apply lookup_lt_Some in Hu. lia. }
  assert (Hpath : path = take i path ++ u :: v :: drop (S (S i)) path).
  { rewrite <- (take_drop i path) at 1.
    by rewrite (drop_S _ _ _ Hu), (drop_S _ _ _ Hv). }
  assert (H1 : take (S i) path = take i path ++ [u]) by by apply take_S_r.
  assert (H2 : take (S (S i)) path = take i path ++ [u; v]).
  { rewrite (take_S_r _ _ _ Hv), H1. by rewrite <- app_assoc. }
  exists (emittedFrom byKey byId 0 (take i path ++ [u])),
         (emittedFrom byKey byId (S i) (v :: drop (S (S i)) path)).
  rewrite !buildRouteSegments_unrolled. fold byKey byId.
  split; [by rewrite H1|]. split.
  - rewrite H2. rewrite (emittedFrom_app _ _ 0 (take i path) u v []).
    rewrite Hi. cbn. by rewrite app_nil_r.
  - rewrite Hpath at 1. rewrite (emittedFrom_app _ _ 0 (take i path) u v).
    by rewrite Hi.
Qed.

End RouteMapFacts.

(** * Claims about components/RouteMap.tsx *)

Module RouteMapClaims.
Import RouteMap RouteMapFacts.

(** C1.  When the canonical key of a consecutive pair [(u, v)] of the path is
    in the edge index, the segment emitted for the pair carries the indexed
    positions as they are if the entry was declared from [u] to [v], and the
    whole indexed sequence reversed otherwise.  The segment comes right after
    the segments of the earlier pairs.  In particular, over a connection
    declared from "A" to "B" with a non-empty geometry, resolving the path
    B, A yields the declared geometry, converted to lat/lon, in reverse; for
    the geometry [[0,0],[1,1],[2,2]] that is [[2,2],[1,1],[0,0]]. *)
Theorem resolver_orients_indexed_geometry :
  (∀ nodes edges path i u v e,
     path !! i = Some u → path !! S i = Some v → u ≠ v →
     edgeGeometryByKey nodes edges !! buildEdgeKey u v = Some e →
     let segment :=
       {| seg_key := segmentKey u v i; seg_from := u; seg_to := v;
          seg_positions :=
            if bool_decide (entry_from e = u ∧ entry_to e = v)
            then entry_positions e else reverse (entry_positions e) |} in
     ∃ before after,
       buildRouteSegments nodes edges (take (S i) path) = Returned before ∧
       buildRouteSegments nodes edges (take (S (S i)) path)
       = Returned (before ++ [segment]) ∧
       buildRouteSegments nodes edges path = Returned (before ++ segment :: after))
  ∧ (∀ (ax ay bx by' d : Q) (fa fb : option Q) (p : Q * Q) (g : list (Q * Q)),
       buildRouteSegments
         [mkNode "A" ax ay fa; mkNode "B" bx by' fb]
         [mkEdge "A" "B" d (Some (p :: g))] ["B"; "A"]
       = Returned [ {| seg_key := "B-A-0"; seg_from := "B"; seg_to := "A";
                       seg_positions := reverse (toLatLon <$> p :: g) |} ])
  ∧ reverse (toLatLon <$> [(0, 0); (1, 1); (2, 2)]%Q)
    = defined <$> [(2, 2); (1, 1); (0, 0)]%Q.
Proof.
  split; [|split; [|done]].
  - intros nodes edges path i u v e Hu Hv Hne He segment.
    destruct (buildRouteSegments_pair nodes edges path i u v Hu Hv)
      as (before & after & H1 & H2 & H3).
    rewrite (emittedFor_found _ _ i u v e Hne He) in H2, H3.
    by exists before, after.
  - intros. rewrite buildRouteSegments_unrolled. cbn [emittedFrom].
    rewrite app_nil_r.
    rewrite (emittedFor_found _ _ 0 "B" "A"
               (entryOf (mkEdge "A" "B" d (Some (p :: g)))
                        (VNode (mkNode "A" ax ay fa))
                        (VNode (mkNode "B" bx by' fb))));
      [reflexivity | discriminate | reflexivity].
Qed.

Lemma resolver_orients_indexed_geometry_witness :
  let nodes := [mkNode "A" 10 20 None; mkNode "B" 30 40 None] in
  let edges := [mkEdge "A" "B" 5 (Some [(0, 0); (1, 1); (2, 2)]%Q)] in
  ∃ before after,
    buildRouteSegments nodes edges (take 1 ["B"; "A"]) = Returned before ∧
    buildRouteSegments nodes edges (take 2 ["B"; "A"])
    = Returned (before ++ [ {| seg_key := "B-A-0"; seg_from := "B"; seg_to := "A";
                               seg_positions :=
                                 defined <$> [(2, 2); (1, 1); (0, 0)]%Q |} ]) ∧
    buildRouteSegments nodes edges ["B"; "A"]
    = Returned (before ++ {| seg_key := "B-A-0"; seg_from := "B"; seg_to := "A";
                             seg_positions :=
                               defined <$> [(2, 2); (1, 1); (0, 0)]%Q |} :: after).
Proof.
  intros nodes edges.
  assert (Hne : "B" ≠ "A") by discriminate.
  pose proof (proj1 resolver_orients_indexed_geometry nodes edges ["B"; "A"] 0
                "B" "A"
                {| entry_from := "A"; entry_to := "B";
                   entry_positions := [toLatLon (0, 0)%Q; toLatLon (1, 1)%Q;
                                       toLatLon (2, 2)%Q] |}
                eq_refl eq_refl Hne eq_refl) as Hpairs.
  destruct Hpairs as (before & after & Hfirst & Hpair & Hall).
  exists before, after.
  split; [exact Hfirst|]. split; [exact Hpair|exact Hall].
Defined.

(** C6, at the failing input.  The node list has the one node "A"; the
    connection runs from "constructor", which is no node, to "A".  The read
    of the node lookup for "constructor" finds the member of
    [Object.prototype], the guard passes, and the connection is indexed, with
    undefined coordinates for its first position. *)
Theorem inherited_end_point_is_indexed :
  let a := mkNode "A" 10 20 None in
  let edge := mkEdge "constructor" "A" 5 None in
  ("constructor" ∉ node_id <$> [a])
  ∧ nodesById [a] !! "constructor" = None
  ∧ edgeGeometryByKey [a] [edge] !! buildEdgeKey "constructor" "A"
    = Some {| entry_from := "constructor"; entry_to := "A";
              entry_positions := [(None, None); (Some 20%Q, Some 10%Q)] |}.
Proof.
  split; [|split; reflexivity].
  cbn. by intros Hin%list_elem_of_singleton.
Qed.

(** C7, as the specification states it: the indexed positions of a
    connection with known end points are derived from its geometry whenever
    the geometry is present.  The connection below has a geometry, the empty
    one, and is indexed with the straight line between its end points. *)
Lemma geometry_whenever_present_counterexample :
  let a := mkNode "A" 10 20 None in
  let b := mkNode "B" 30 40 None in
  let edge := mkEdge "A" "B" 5 (Some []) in
  edge_geometry edge = Some []
  ∧ entry_positions <$> edgeGeometryByKey [a; b] [edge] !! buildEdgeKey "A" "B"
    = Some (defined <$> [(20, 10); (40, 30)]%Q)
  ∧ entry_positions <$> edgeGeometryByKey [a; b] [edge] !! buildEdgeKey "A" "B"
    ≠ Some (toLatLon <$> []).
Proof. by vm_compute. Qed.

(** C7, amended.  For a connection with both end points known, the indexed
    positions (and the positions of its grey polyline) are its geometry with
    each [[lon, lat]] point turned into [[lat, lon]] when the geometry is
    present and not empty; when it is absent or empty they are the two-point
    line [[from.y, from.x], [to.y, to.x]]. *)
Theorem positions_from_nonempty_geometry nodes pre edge post f t :
  nodesById nodes !! edge_from_ edge = Some f →
  nodesById nodes !! edge_to edge = Some t →
  (∀ later, later ∈ post → known (nodesById nodes) later →
            keyOf later ≠ keyOf edge) →
  let positions :=
    match edge_geometry edge with
    | Some (p :: g) =>
        defined <$> ((λ lonlat : Q * Q, (lonlat.2, lonlat.1)) <$> (p :: g))
    | Some [] | None =>
        defined <$> [(node_y f, node_x f); (node_y t, node_x t)]
    end in
  edgeGeometryByKey nodes (pre ++ edge :: post) !! keyOf edge
  = Some {| entry_from := edge_from_ edge; entry_to := edge_to edge;
            entry_positions := positions |}
  ∧ edgeLines nodes [edge]
    = [ {| line_positions := positions; line_distance := edge_distance edge |} ].
Proof.
  intros Hf Ht Hlast positions.
  pose proof (lookup_known _ edge f t Hf Ht) as Hknown.
  apply lookup_get in Hf, Ht.
  assert (Hpos : edgePositions edge (VNode f) (VNode t) = positions).
  { rewrite edgePositions_cases. subst positions.
    destruct (edge_geometry edge) as [[|p g]|]; [done| |done].
    rewrite <- list_fmap_compose. by apply list_fmap_ext. }
  split.
  - unfold edgeGeometryByKey.
    rewrite (foldl_step_last (nodesById nodes) pre post ∅ edge Hknown Hlast).
    unfold entryOf. by rewrite Hf, Ht, Hpos.
  - unfold edgeLines. cbn. by rewrite Hf, Ht, Hpos.
Qed.

Lemma positions_from_nonempty_geometry_witness :
  let a := mkNode "A" 10 20 None in
  let b := mkNode "B" 30 40 None in
  edgeGeometryByKey [a; b] ([] ++ mkEdge "A" "B" 5 (Some [(1, 2); (3, 4)]%Q) :: [])
    !! "A|B"
  = Some {| entry_from := "A"; entry_to := "B";
            entry_positions := defined <$> [(2, 1); (4, 3)]%Q |}
  ∧ edgeLines [a; b] [mkEdge "A" "B" 5 (Some [(1, 2); (3, 4)]%Q)]
    = [ {| line_positions := defined <$> [(2, 1); (4, 3)]%Q;
           line_distance := 5 |} ].
Proof.
  intros a b.
  apply (positions_from_nonempty_geometry [a; b] []
           (mkEdge "A" "B" 5 (Some [(1, 2); (3, 4)]%Q)) [] a b);
    [reflexivity | reflexivity |].
  intros later Hin. by apply not_elem_of_nil in Hin.
Defined.


(** C9, at the failing input.  The node list has the one node "A" and there
    are no connections; the path runs from "constructor", which is no known
    location, to "A".  The read of the node lookup for "constructor" finds
    the member of [Object.prototype], the guard passes, and the pair is not
    skipped: a segment is emitted whose first position has undefined
    coordinates. *)
Theorem inherited_name_is_drawn :
  let a := mkNode "A" 10 20 None in
  ("constructor" ∉ node_id <$> [a])
  ∧ nodesById [a] !! "constructor" = None
  ∧ edgeGeometryByKey [a] [] !! buildEdgeKey "constructor" "A" = None
  ∧ buildRouteSegments [a] [] ["constructor"; "A"]
    = Returned [ {| seg_key := "constructor-A-0";
                    seg_from := "constructor"; seg_to := "A";
                    seg_positions := [(None, None); (Some 20%Q, Some 10%Q)] |} ].
Proof.
  split; [|split; [|split]; reflexivity].
  cbn. by intros Hin%list_elem_of_singleton.
Qed.

End RouteMapClaims.
(** * Properties of app/page.tsx *)

Module PageFacts.
Import Page.

(** Runs the setters of a handler on the state it is applied to. *)
Ltac handler_unfold :=
  unfold mbind, Handler_bind, mret, Handler_ret, when, throw, readProp, await,
    setNodes, setEdges, setRoute, setBaselinePath, setComparison,
    setFrom, setTo, setLoading, setError;
  cbn.

(** ** The summary path *)

(** The loop keeps an identifier when it differs from the last one kept; that
    is the same as differing from its predecessor in the raw path. *)
Lemma foldl_pushIfNew (path cleaned : list NodeId) :
  foldl pushIfNew cleaned path = cleaned ++ keepChanges (last cleaned) path.
Proof.
  revert cleaned. induction path as [|node path IH]; intros cleaned; cbn.
  - by rewrite app_nil_r.
  - rewrite IH. unfold pushIfNew.
    destruct (decide (last cleaned = Some node)) as [Hlast|Hlast].
    + rewrite (bool_decide_eq_true_2 _ Hlast), orb_false_r.
      rewrite bool_decide_eq_false_2; [by rewrite Hlast|].
      intros Hnil. apply nil_length_inv in Hnil. by subst cleaned.
    + rewrite (bool_decide_eq_false_2 _ Hlast), orb_true_r.
      by rewrite last_snoc, <- app_assoc.
Qed.

Lemma summaryPath_keepChanges (r : Route) :
  summaryPath (Some r) = keepChanges None (route_path r).
Proof.
  unfold summaryPath. case_bool_decide as Hlen.
  - apply nil_length_inv in Hlen. by rewrite Hlen.
  - by rewrite foldl_pushIfNew.
Qed.

Lemma keepChanges_head prev path (a : NodeId) :
  head (keepChanges prev path) = Some a → prev ≠ Some a.
Proof.
  revert prev. induction path as [|node path IH]; intros prev; cbn; [done|].
  case_bool_decide as Hprev.
  - intros Hhead. apply IH in Hhead. by rewrite Hprev.
  - intros [= ->]. done.
Qed.

Lemma keepChanges_no_repeat prev path i (a b : NodeId) :
  keepChanges prev path !! i = Some a →
  keepChanges prev path !! S i = Some b → a ≠ b.
Proof.
  revert prev i. induction path as [|node path IH]; intros prev i; cbn; [done|].
  case_bool_decide; [apply IH|].
  destruct i as [|i]; cbn; [|apply IH].
  intros [= ->] Hb Heq. subst b.
  apply (keepChanges_head (Some a) path a); [by rewrite head_lookup|done].
Qed.

Lemma keepChanges_unchanged prev (path : list NodeId) :
  (∀ a, head path = Some a → prev ≠ Some a) →
  (∀ i a b, path !! i = Some a → path !! S i = Some b → a ≠ b) →
  keepChanges prev path = path.
Proof.
  revert prev. induction path as [|node path IH]; intros prev Hhead Hadj; cbn; [done|].
  rewrite bool_decide_eq_false_2 by by apply Hhead.
  f_equal. apply IH.
  - intros a Ha [= ->]. rewrite head_lookup in Ha.
    by apply (Hadj 0 a a).
  - intros i a b Ha Hb. by apply (Hadj (S i)).
Qed.

(** ** The fetch handler *)

Lemma copy_edges (l : list Edge) :
  (λ e, {| edge_from_ := edge_from_ e; edge_to := edge_to e;
           edge_distance := edge_distance e;
           edge_geometry := edge_geometry e |}) <$> l = l.
Proof. induction l as [|[] l IH]; cbn; [done|]. by rewrite IH. Qed.

(** When the [try] block runs to its end, the five cells of the View Model
    hold the content of the response, whatever they held before. *)
Lemma commitResponse_commits req data s :
  commits req data →
  ∃ s', commitResponse req data s = (Normal (), s')
        ∧ viewModel s' = responseContent data
        ∧ loading s' = loading s ∧ error s' = error s.
Proof.
  intros Hcommits. destruct s. unfold commitResponse.
  rewrite list_fmap_id, copy_edges.
  destruct (useCurrentStartGoal req) eqn:Hcur; cbn.
  - eexists. split; [reflexivity|]. repeat split; reflexivity.
  - destruct Hcommits as [|[r Hr]]; [congruence|].
    unfold responseContent. rewrite Hr. handler_unfold.
    destruct (bool_decide (0 < length (route_path (backfillSummary r))));
      [|eexists; split; [reflexivity|]; repeat split; reflexivity].
    destruct (bool_decide (selectedFrom req = EmptyString)),
             (bool_decide (selectedTo req = EmptyString));
      cbn; eexists; (split; [reflexivity|]); repeat split; reflexivity.
Qed.

(** When the last statement of the [try] block throws, the [catch] block
    clears the route that the block had set. *)
Lemma commitResponse_throws req data s :
  ¬ commits req data →
  ∃ e s', commitResponse req data s = (Abrupt e, s')
          ∧ nodes s' = resp_nodes data ∧ edges s' = resp_edges data
          ∧ comparison s' = resp_comparison data.
Proof.
  intros Hnot. destruct s. unfold commitResponse.
  rewrite list_fmap_id, copy_edges.
  destruct (useCurrentStartGoal req) eqn:Hcur; [by destruct Hnot; left|].
  destruct (resp_route data) as [r|] eqn:Hr;
    [by destruct Hnot; right; eauto|].
  cbn. eexists _, _. split; [reflexivity|]. repeat split; reflexivity.
Qed.

Lemma fetchRouteSettle_answered req status data s :
  fetchRouteSettle req (answered status data) s
  = (tryCatchFinally (commitResponse req data) catchBlock finallyBlock s).2.
Proof.
  unfold fetchRouteSettle, tryCatchFinally, tryBlock, answered.
  handler_unfold. reflexivity.
Qed.

Lemma fetchRouteSettle_commits req status data s :
  commits req data →
  viewModel (fetchRouteSettle req (answered status data) s) = responseContent data.
Proof.
  intros Hcommits. rewrite fetchRouteSettle_answered.
  destruct (commitResponse_commits req data s Hcommits) as (s' & Hs' & Hvm & _).
  unfold tryCatchFinally. rewrite Hs'. by destruct s'.
Qed.

(** A request that fails before the body is parsed: the [catch] and
    [finally] blocks run on the state as it was. *)
Lemma fetchRouteSettle_failed req fetched s :
  failedFetch fetched = true →
  fetchRouteSettle req fetched s
  = {| nodes := nodes s; edges := edges s; comparison := comparison s;
       route := None; baselinePath := [];
       from := from s; to := to s; loading := false;
       error := Some (failureMessage fetched) |}.
Proof.
  intros Hfailed. destruct s.
  unfold fetchRouteSettle, tryCatchFinally, tryBlock, catchBlock, finallyBlock.
  destruct fetched as [[ok status json]|e]; cbn in Hfailed.
  - apply negb_true_iff in Hfailed. subst ok. handler_unfold. reflexivity.
  - destruct e; handler_unfold; reflexivity.
Qed.

(** Whatever a settled request does, it leaves either no route or the whole
    content of its own response. *)
Lemma fetchRouteSettle_cases req fetched s :
  route (fetchRouteSettle req fetched s) = None
  ∨ ∃ status data, fetched = answered status data
      ∧ viewModel (fetchRouteSettle req fetched s) = responseContent data.
Proof.
  destruct fetched as [[ok status json]|e].
  - destruct ok; [|by left; rewrite fetchRouteSettle_failed].
    destruct json as [data|e].
    + fold (answered status data).
      destruct (decide (commits req data)) as [Hc|Hc].
      * right. exists status, data. split; [done|].
        by apply fetchRouteSettle_commits.
      * left. rewrite fetchRouteSettle_answered.
        destruct (commitResponse_throws req data s Hc) as (e & s' & Hs' & _).
        unfold tryCatchFinally. rewrite Hs'.
        unfold catchBlock, finallyBlock. handler_unfold. reflexivity.
    + left. unfold fetchRouteSettle, tryCatchFinally, tryBlock, catchBlock,
        finallyBlock. handler_unfold. reflexivity.
  - by left; rewrite fetchRouteSettle_failed.
Qed.

End PageFacts.

(** * Claims about app/page.tsx *)

Module PageClaims.
Import Page PageFacts.

(** C4.  The path clean-up drops exactly the identifiers equal to their
    immediate predecessor in the raw path: the result has no two equal
    neighbours, and a path without equal neighbours is returned unchanged, so
    repeats that are not adjacent stay.  A, A, B, C, C, C becomes A, B, C and
    A, B, A, C stays as it is. *)
Theorem summary_path_collapses_adjacent_duplicates :
  (∀ r : Route,
     summaryPath (Some r) = keepChanges None (route_path r)
     ∧ (∀ i a b, summaryPath (Some r) !! i = Some a →
                 summaryPath (Some r) !! S i = Some b → a ≠ b)
     ∧ ((∀ i a b, route_path r !! i = Some a →
                  route_path r !! S i = Some b → a ≠ b) →
        summaryPath (Some r) = route_path r))
  ∧ (∀ r : Route,
       route_path r = ["A"; "A"; "B"; "C"; "C"; "C"] →
       summaryPath (Some r) = ["A"; "B"; "C"])
  ∧ (∀ r : Route,
       route_path r = ["A"; "B"; "A"; "C"] →
       summaryPath (Some r) = ["A"; "B"; "A"; "C"]).
Proof.
  split; [|split].
  - intros r. rewrite summaryPath_keepChanges.
    split; [done|]. split.
    + intros i a b. apply keepChanges_no_repeat.
    + intros Hadj. by apply keepChanges_unchanged.
  - intros r Hpath. unfold summaryPath. by rewrite Hpath.
  - intros r Hpath. unfold summaryPath. by rewrite Hpath.
Qed.

Lemma summary_path_collapses_adjacent_duplicates_witness :
  let r := {| route_path := ["A"; "A"; "B"; "C"; "C"; "C"];
              route_total_distance := Some 120.4%Q;
              route_fuel_cost := Some 38.2%Q;
              route_objective := 0; route_expanded := 0;
              route_notes := None; route_summary := None |} in
  route_path r = ["A"; "A"; "B"; "C"; "C"; "C"]
  ∧ summaryPath (Some r) = ["A"; "B"; "C"].
Proof.
  intros r. split; [reflexivity|].
  apply (proj1 (proj2 summary_path_collapses_adjacent_duplicates) r).
  reflexivity.
Defined.

(** C5.  A route without a summary gets the summary [{ distance_km:
    total_distance ?? 0, fuel_cost: fuel_cost ?? 0 }] and is otherwise
    unchanged (so 120.4 and 38.2 give [{120.4, 38.2}]); a route with a
    summary is passed through as it is, whatever its total distance and fuel
    cost; and this is the route that a response that commits leaves in the
    state. *)
Theorem summary_backfilled_only_when_absent :
  (∀ r : Route,
     route_summary r = None →
     backfillSummary r
     = {| route_path := route_path r;
          route_total_distance := route_total_distance r;
          route_fuel_cost := route_fuel_cost r;
          route_objective := route_objective r;
          route_expanded := route_expanded r;
          route_notes := route_notes r;
          route_summary :=
            Some {| distance_km := default 0%Q (route_total_distance r);
                    fuel_cost := default 0%Q (route_fuel_cost r) |} |})
  ∧ (∀ r : Route,
       route_summary r = None →
       route_total_distance r = Some 120.4%Q →
       route_fuel_cost r = Some 38.2%Q →
       route_summary (backfillSummary r)
       = Some {| distance_km := 120.4; fuel_cost := 38.2 |})
  ∧ (∀ (r : Route) (given : RouteSummary),
       route_summary r = Some given → backfillSummary r = r)
  ∧ (∀ req status data s,
       commits req data →
       route (fetchRouteSettle req (answered status data) s)
       = backfillSummary <$> resp_route data).
Proof.
  split; [|split; [|split]].
  - intros r Habsent. unfold backfillSummary. by rewrite Habsent.
  - intros r Habsent Hdist Hfuel. unfold backfillSummary.
    rewrite Habsent. cbn. by rewrite Hdist, Hfuel.
  - intros r given Hgiven. unfold backfillSummary. by rewrite Hgiven.
  - intros req status data s Hcommits.
    pose proof (fetchRouteSettle_commits req status data s Hcommits) as Hvm.
    by apply (f_equal vm_route) in Hvm.
Qed.

Lemma summary_backfilled_only_when_absent_witness :
  let r := {| route_path := ["X"; "Y"];
              route_total_distance := Some 120.4%Q;
              route_fuel_cost := Some 38.2%Q;
              route_objective := 1; route_expanded := 4;
              route_notes := None;
              route_summary := Some {| distance_km := 7; fuel_cost := 9 |} |} in
  route_summary r = Some {| distance_km := 7; fuel_cost := 9 |}
  ∧ backfillSummary r = r.
Proof.
  intros r. split; [reflexivity|].
  apply (proj1 (proj2 (proj2 summary_backfilled_only_when_absent)) r
           {| distance_km := 7; fuel_cost := 9 |}).
  reflexivity.
Defined.

(** C2.  A response that commits writes the five cells of the View Model
    (nodes, edges, route, baseline path, comparison) from that one response,
    whatever the state was.  So after any sequence of turns that ends with
    such a commit the View Model is the content of the response committed
    last; for two overlapping requests that is R1's content when R1 settles
    after R2 and R2's content when R2 settles after R1.  In every state the
    page reaches from its initial state, a route is present only together
    with the nodes, edges, baseline path and comparison of the same
    response. *)
Theorem last_commit_wins_wholesale :
  (∀ s turns req status data,
     commits req data →
     viewModel (run s (turns ++ [Settle req (answered status data)]))
     = responseContent data)
  ∧ (∀ s req1 req2 status1 status2 data1 data2,
       commits req1 data1 → commits req2 data2 →
       viewModel (run s [Issue req1; Issue req2;
                         Settle req2 (answered status2 data2);
                         Settle req1 (answered status1 data1)])
       = responseContent data1
       ∧ viewModel (run s [Issue req1; Issue req2;
                           Settle req1 (answered status1 data1);
                           Settle req2 (answered status2 data2)])
         = responseContent data2)
  ∧ (∀ turns,
       route (run initialState turns) = None
       ∨ ∃ req status data,
           Settle req (answered status data) ∈ turns
           ∧ viewModel (run initialState turns) = responseContent data).
Proof.
  assert (Hlast : ∀ s turns req status data,
            commits req data →
            viewModel (run s (turns ++ [Settle req (answered status data)]))
            = responseContent data).
  { intros s turns req status data Hcommits. unfold run.
    rewrite foldl_app. cbn [foldl turn].
    by apply fetchRouteSettle_commits. }
  split; [exact Hlast|]. split.
  - intros s req1 req2 status1 status2 data1 data2 H1 H2. split.
    + by apply (Hlast s [Issue req1; Issue req2;
                         Settle req2 (answered status2 data2)]).
    + by apply (Hlast s [Issue req1; Issue req2;
                         Settle req1 (answered status1 data1)]).
  - induction turns as [|t turns IH] using rev_ind; [by left|].
    unfold run in *. rewrite foldl_app. cbn [foldl].
    destruct t as [req|req fetched]; cbn [turn].
    + destruct IH as [Hnone|(req' & status & data & Hin & Hvm)].
      * left. unfold fetchRouteStart. handler_unfold. exact Hnone.
      * right. exists req', status, data.
        split; [apply elem_of_app; by left|].
        rewrite <- Hvm. unfold fetchRouteStart. handler_unfold. reflexivity.
    + destruct (fetchRouteSettle_cases req fetched (foldl turn initialState turns))
        as [Hnone|(status & data & -> & Hvm)]; [by left|].
      right. exists req, status, data.
      split; [apply elem_of_app; right; by left|done].
Qed.

Lemma last_commit_wins_wholesale_witness :
  let stale :=
    {| nodes := [mkNode "P" 1 2 None]; edges := [];
       comparison := None;
       route := Some (mkRoute ["P"] None None 0 0 None None);
       baselinePath := ["P"]; from := "P"; to := "P";
       loading := false; error := None |} in
  let data :=
    {| resp_api_version := Some "v1";
       resp_nodes := [mkNode "A" 10 20 None; mkNode "B" 30 40 None];
       resp_edges := [mkEdge "A" "B" 5 None];
       resp_route := Some (mkRoute ["A"; "B"] (Some 5%Q) (Some 2%Q) 0 3 None None);
       resp_baseline_path := None;
       resp_comparison := None |} in
  let req := {| useCurrentStartGoal := true; selectedFrom := "A"; selectedTo := "B" |} in
  commits req data
  ∧ viewModel (run stale ([Issue req] ++ [Settle req (answered 200 data)]))
    = responseContent data.
Proof.
  intros stale data req.
  assert (Hcommits : commits req data) by (left; reflexivity).
  split; [exact Hcommits|].
  exact (proj1 last_commit_wins_wholesale stale [Issue req] req 200 data Hcommits).
Defined.

(** C3, as the specification states it: on a failed fetch the error handler
    clears the route, the baseline path and the comparison.  In the state
    below a comparison is held when the request is rejected, and it is still
    held afterwards. *)
Lemma failed_fetch_clears_comparison_counterexample :
  let held := {| baseline_fuel_cost := 50; optimized_fuel_cost := 40;
                 savings_amount := 10; savings_percent := 20 |} in
  let s := {| nodes := [mkNode "A" 10 20 None; mkNode "B" 30 40 None];
              edges := [mkEdge "A" "B" 5 None];
              comparison := Some held;
              route := Some (mkRoute ["A"; "B"] (Some 5%Q) (Some 40%Q) 0 3 None None);
              baselinePath := ["A"; "B"]; from := "A"; to := "B";
              loading := true; error := None |} in
  let req := {| useCurrentStartGoal := true; selectedFrom := "A"; selectedTo := "B" |} in
  let s' := fetchRouteSettle req (Rejected (ErrorInstance "Failed to fetch")) s in
  error s' = Some "Failed to fetch"
  ∧ comparison s' = Some held
  ∧ comparison s' ≠ None.
Proof. by vm_compute. Qed.

(** C3, amended.  On a failed fetch (the request is rejected, or the status
    is not 2xx) the error handler sets the error message and clears the route
    and the baseline path; the comparison cell keeps its value.  The page
    then shows the placeholder in place of the route summary, which is where
    a comparison would be shown, and hands the map an empty route path and an
    empty baseline path. *)
Theorem failed_fetch_clears_route_and_baseline req fetched s :
  failedFetch fetched = true →
  let s' := fetchRouteSettle req fetched s in
  error s' = Some (failureMessage fetched)
  ∧ route s' = None
  ∧ baselinePath s' = []
  ∧ comparison s' = comparison s
  ∧ routeSummaryPanel s' = Placeholder
  ∧ prop_routePath (mapProps s') = []
  ∧ prop_baselineRoutePath (mapProps s') = [].
Proof.
  intros Hfailed s'. subst s'.
  rewrite (fetchRouteSettle_failed req fetched s Hfailed).
  repeat split; reflexivity.
Qed.

Lemma failed_fetch_clears_route_and_baseline_witness :
  let s := {| nodes := [mkNode "A" 10 20 None]; edges := [];
              comparison := None;
              route := Some (mkRoute ["A"] None None 0 1 None None);
              baselinePath := ["A"]; from := "A"; to := "A";
              loading := true; error := None |} in
  let req := {| useCurrentStartGoal := true; selectedFrom := "A"; selectedTo := "A" |} in
  let fetched := Fulfilled {| res_ok := false; res_status := 500;
                              res_json := Rejected OtherValue |} in
  let s' := fetchRouteSettle req fetched s in
  failedFetch fetched = true
  ∧ error s' = Some "Request failed with status 500"
  ∧ route s' = None
  ∧ baselinePath s' = []
  ∧ comparison s' = None
  ∧ routeSummaryPanel s' = Placeholder
  ∧ prop_routePath (mapProps s') = []
  ∧ prop_baselineRoutePath (mapProps s') = [].
Proof.
  intros s req fetched s'.
  split; [reflexivity|].
  exact (failed_fetch_clears_route_and_baseline req fetched s eq_refl).
Defined.

(** C10.  On a failed fetch the nodes and the edges are left as they were:
    the [catch] and [finally] blocks write the error, the route, the baseline
    path and the loading flag, and nothing else, so the graph fetched before
    stays on the map next to the error. *)
Theorem failed_fetch_keeps_graph req fetched s :
  failedFetch fetched = true →
  let s' := fetchRouteSettle req fetched s in
  nodes s' = nodes s
  ∧ edges s' = edges s
  ∧ prop_nodes (mapProps s') = nodes s
  ∧ prop_edges (mapProps s') = edges s
  ∧ s' = {| nodes := nodes s; edges := edges s; comparison := comparison s;
            route := None; baselinePath := [];
            from := from s; to := to s;
            loading := false; error := Some (failureMessage fetched) |}.
Proof.
  intros Hfailed s'. subst s'.
  rewrite (fetchRouteSettle_failed req fetched s Hfailed).
  repeat split; reflexivity.
Qed.

Lemma failed_fetch_keeps_graph_witness :
  let s := {| nodes := [mkNode "A" 10 20 None; mkNode "B" 30 40 None];
              edges := [mkEdge "A" "B" 5 None];
              comparison := None;
              route := Some (mkRoute ["A"; "B"] None None 0 2 None None);
              baselinePath := []; from := "A"; to := "B";
              loading := true; error := None |} in
  let req := {| useCurrentStartGoal := true; selectedFrom := "A"; selectedTo := "B" |} in
  let fetched : Settled Response := Rejected (ErrorInstance "Failed to fetch") in
  let s' := fetchRouteSettle req fetched s in
  failedFetch fetched = true
  ∧ nodes s' = [mkNode "A" 10 20 None; mkNode "B" 30 40 None]
  ∧ edges s' = [mkEdge "A" "B" 5 None].
Proof.
  intros s req fetched s'.
  split; [reflexivity|].
  destruct (failed_fetch_keeps_graph req fetched s eq_refl) as (Hn & He & _).
  split; [exact Hn | exact He].
Defined.

End PageClaims.
(** * Further properties of components/RouteMap.tsx *)

Module RouteMapMore.
Import RouteMap RouteMapFacts.

(** ** Strings with a separator *)

Lemma append_nil_l (b : string) : EmptyString +:+ b = b.
Proof. reflexivity. Qed.

Lemma append_cons (x : ascii) (a b : string) :
  String x a +:+ b = String x (a +:+ b).
Proof. reflexivity. Qed.

Lemma append_assoc (a b c : string) : (a +:+ b) +:+ c = a +:+ b +:+ c.
Proof.
  induction a as [|x a IH]; [done|]. rewrite !append_cons. by f_equal.
Qed.

Lemma includes_append (c : ascii) (a b : string) :
  includes c (a +:+ b) = includes c a || includes c b.
Proof.
  induction a as [|x a IH]; [done|].
  rewrite append_cons. cbn [includes]. by rewrite IH, orb_assoc.
Qed.

Lemma includes_separator (c : ascii) (a b : string) :
  includes c (a +:+ String c b) = true.
Proof.
  rewrite includes_append. cbn [includes].
  rewrite bool_decide_eq_true_2 by done. apply orb_true_r.
Qed.

(** Cutting at the first separator: the text before it has none. *)
Lemma split_first_separator (c : ascii) (a b u v : string) :
  includes c u = false → includes c v = false →
  a +:+ String c b = u +:+ String c v → a = u ∧ b = v.
Proof.
  revert a. induction u as [|y u IH]; intros a Hu Hv Heq.
  - destruct a as [|x a]; rewrite ?append_nil_l, ?append_cons in Heq.
    + by injection Heq as ->.
    + injection Heq as -> Hrest. rewrite <- Hrest, includes_separator in Hv.
      discriminate.
  - cbn [includes] in Hu. apply orb_false_iff in Hu as [Hy Hu].
    apply bool_decide_eq_false in Hy.
    destruct a as [|x a]; rewrite ?append_nil_l, ?append_cons in Heq.
    + injection Heq as Hc _. by destruct Hy.
    + injection Heq as -> Hrest. by destruct (IH a Hu Hv Hrest) as [-> ->].
Qed.

(** Cutting at the last separator: the text after it has none. *)
Lemma split_last_separator (c : ascii) (a b u v : string) :
  includes c b = false → includes c v = false →
  a +:+ String c b = u +:+ String c v → a = u ∧ b = v.
Proof.
  revert u. induction a as [|x a IH]; intros u Hb Hv Heq.
  - destruct u as [|y u]; rewrite ?append_nil_l, ?append_cons in Heq.
    + by injection Heq as ->.
    + injection Heq as _ Hrest. rewrite Hrest, includes_separator in Hb.
      discriminate.
  - destruct u as [|y u]; rewrite ?append_nil_l, ?append_cons in Heq.
    + injection Heq as _ Hrest. rewrite <- Hrest, includes_separator in Hv.
      discriminate.
    + injection Heq as -> Hrest. by destruct (IH u Hb Hv Hrest) as [-> ->].
Qed.

Lemma buildEdgeKey_pair (a b u v : NodeId) :
  includes "|" u = false → includes "|" v = false →
  buildEdgeKey a b = buildEdgeKey u v →
  (a = u ∧ b = v) ∨ (a = v ∧ b = u).
Proof.
  intros Hu Hv. unfold buildEdgeKey.
  destruct (String.ltb a b), (String.ltb u v);
    rewrite !append_cons, !append_nil_l; intros Heq;
    apply split_first_separator in Heq as [-> ->]; auto.
Qed.

(** X1.  For identifiers without the character "|", the canonical key
    determines the unordered pair: two pairs have the same key exactly when
    they are the same pair, in the same or in the opposite order. *)
Theorem edge_key_identifies_pair (a b u v : NodeId) :
  includes "|" u = false → includes "|" v = false →
  buildEdgeKey a b = buildEdgeKey u v ↔ (a = u ∧ b = v) ∨ (a = v ∧ b = u).
Proof.
  intros Hu Hv. split.
  - by apply buildEdgeKey_pair.
  - intros [[-> ->]|[-> ->]]; [done|apply buildEdgeKey_sym].
Qed.

Lemma edge_key_identifies_pair_witness :
  buildEdgeKey "Austin, TX" "Boise, ID" = buildEdgeKey "Boise, ID" "Austin, TX"
  ↔ ("Austin, TX" = "Boise, ID" ∧ "Boise, ID" = "Austin, TX")
    ∨ ("Austin, TX" = "Austin, TX" ∧ "Boise, ID" = "Boise, ID").
Proof.
  apply (edge_key_identifies_pair "Austin, TX" "Boise, ID" "Boise, ID" "Austin, TX");
    reflexivity.
Defined.

(** ** The colour scale *)

(** The clamp [Math.max(0, Math.min(1, q))], by cases of [q]. *)
Lemma clamp_cases (q : float) :
  Math.max 0 (Math.min 1 q)
  = if PrimFloat.is_nan q then PrimFloat.nan
    else if (1 <? q)%float then 1%float
    else if (0 <? q)%float then q
    else 0%float.
Proof.
  unfold Math.min.
  change (PrimFloat.is_nan 1) with false. cbn [orb].
  change (PrimFloat.is_zero 1 && PrimFloat.get_sign 1) with false.
  destruct (PrimFloat.is_nan q) eqn:Hnan; [reflexivity|].
  destruct (1 <? q)%float; [reflexivity|].
  assert (Hq : (if (q <? 1)%float then q else q) = q) by by destruct (q <? 1)%float.
  rewrite Hq. unfold Math.max.
  change (PrimFloat.is_nan 0) with false. rewrite Hnan. cbn [orb].
  destruct (0 <? q)%float; [reflexivity|].
  by destruct (q <? 0)%float.
Qed.

(** X26.  The colour scale, by cases.  When [maxPrice - minPrice], as the
    binary64 subtraction gives it, is below 0.001, the colour is the fixed one
    for every price.  Otherwise saturation and lightness are 72 and 40, and
    the hue follows the quotient [(price - minPrice) / (maxPrice - minPrice)]:
    0 when the quotient is above 1, [120 - quotient * 120] when it is above 0
    and at most 1, 120 when it is 0 or below, and [NaN] when the quotient is
    [NaN]. *)
Theorem price_scale_by_quotient (price minPrice maxPrice : float) :
  let width := (maxPrice - minPrice)%float in
  let quotient := ((price - minPrice) / width)%float in
  ((width <? 0.001)%float = true →
   getPriceColor price minPrice maxPrice = Hsl 202 75 42)
  ∧ ((width <? 0.001)%float = false →
     getPriceColor price minPrice maxPrice
     = if PrimFloat.is_nan quotient then Hsl PrimFloat.nan 72 40
       else if (1 <? quotient)%float then Hsl 0 72 40
       else if (0 <? quotient)%float then Hsl (120 - quotient * 120) 72 40
       else Hsl 120 72 40).
Proof.
  intros width quotient. unfold getPriceColor. fold width. split; intros ->.
  - reflexivity.
  - fold quotient. rewrite clamp_cases.
    destruct (PrimFloat.is_nan quotient); [reflexivity|].
    destruct (1 <? quotient)%float; [reflexivity|].
    by destruct (0 <? quotient)%float.
Qed.

Lemma price_scale_by_quotient_witness :
  getPriceColor 5 5 5.0005 = Hsl 202 75 42
  ∧ getPriceColor 3.1 3 4 = Hsl 107.99999999999999 72 40.
Proof.
  split.
  - exact (proj1 (price_scale_by_quotient 5 5 5.0005) eq_refl).
  - exact (proj2 (price_scale_by_quotient 3.1 3 4) eq_refl).
Defined.

(** ** The node lookup *)

Lemma foldl_assign_proto (nodes : list Node) (lookup : NodeObject) :
  proto (foldl (λ lookup n, assign (node_id n) n lookup) lookup nodes)
  = match last (filter (λ n, node_id n = "__proto__") nodes) with
    | Some n => Some n
    | None => proto lookup
    end.
Proof.
  revert lookup. induction nodes as [|n nodes IH]; intros lookup; cbn [foldl];
    [done|].
  rewrite IH, filter_cons. unfold assign.
  case_bool_decide as Hid.
  - rewrite decide_True by done. rewrite last_cons.
    by destruct (last (filter (λ n0, node_id n0 = "__proto__") nodes)).
  - by rewrite decide_False by done.
Qed.

Lemma foldl_assign_own (nodes : list Node) (lookup : NodeObject) (i : string) :
  i ≠ "__proto__" →
  own (foldl (λ lookup n, assign (node_id n) n lookup) lookup nodes) !! i
  = match last (filter (λ n, node_id n = i) nodes) with
    | Some n => Some n
    | None => own lookup !! i
    end.
Proof.
  intros Hi. revert lookup.
  induction nodes as [|n nodes IH]; intros lookup; cbn [foldl]; [done|].
  rewrite IH, filter_cons. unfold assign.
  case_bool_decide as Hid.
  - rewrite decide_False by congruence. done.
  - cbn [own]. case_decide as Hn.
    + rewrite last_cons.
      destruct (last (filter (λ n0, node_id n0 = i) nodes)); [done|].
      subst i. apply lookup_insert_eq.
    + destruct (last (filter (λ n0, node_id n0 = i) nodes)); [done|].
      by apply lookup_insert_ne.
Qed.

Lemma foldl_assign_own_proto (nodes : list Node) (lookup : NodeObject) :
  own (foldl (λ lookup n, assign (node_id n) n lookup) lookup nodes) !! "__proto__" = own lookup !! "__proto__".
Proof.
  revert lookup. induction nodes as [|n nodes IH]; intros lookup; cbn [foldl];
    [done|].
  rewrite IH. unfold assign.
  case_bool_decide as Hid; [done|]. cbn [own]. by apply lookup_insert_ne.
Qed.

Lemma last_filter_None (nodes : list Node) (i : string) :
  last (filter (λ n, node_id n = i) nodes) = None ↔ i ∉ (node_id <$> nodes).
Proof.
  rewrite last_None. split.
  - intros Hnil Hin. apply list_elem_of_fmap in Hin as (n & -> & Hin).
    assert (Hn : n ∈ filter (λ n0, node_id n0 = node_id n) nodes)
      by by apply list_elem_of_filter.
    rewrite Hnil in Hn. by apply not_elem_of_nil in Hn.
  - intros Hout.
    destruct (filter (λ n, node_id n = i) nodes) as [|n l] eqn:Hl; [done|].
    assert (Hn : n ∈ filter (λ n, node_id n = i) nodes) by (rewrite Hl; left).
    apply list_elem_of_filter in Hn as [<- Hn].
    destruct Hout. by apply list_elem_of_fmap_2.
Qed.

Lemma not_a_node (p : Node) (k : string) (n : Node) :
  default (prototypeProperty k) (nodeProperty p k) ≠ VNode n
  ∧ prototypeProperty k ≠ VNode n.
Proof.
  unfold nodeProperty, prototypeProperty.
  repeat case_bool_decide; destruct (node_fuel_price p); done.
Qed.

(** A read gives a node exactly for the identifiers of nodes: the last node
    with that identifier. *)
Lemma nodesById_lookup (nodes : list Node) (i : NodeId) :
  nodesById nodes !! i = last (filter (λ n, node_id n = i) nodes).
Proof.
  unfold lookup at 1, NodeObject_lookup, get, nodesById.
  destruct (decide (i = "__proto__")) as [->|Hi].
  - rewrite foldl_assign_own_proto, foldl_assign_proto. cbn [own proto emptyObject].
    rewrite lookup_empty.
    by destruct (last (filter (λ n, node_id n = "__proto__") nodes)).
  - rewrite foldl_assign_own by done. cbn [own emptyObject]. rewrite lookup_empty.
    destruct (last (filter (λ n, node_id n = i) nodes)) as [n|]; [done|].
    rewrite bool_decide_eq_false_2 by done.
    destruct (proto _) as [p|].
    + destruct (default (prototypeProperty i) (nodeProperty p i)) eqn:Hv;
        try done.
      by destruct (proj1 (not_a_node p i n) Hv).
    + destruct (prototypeProperty i) eqn:Hv; try done.
      by destruct (proj2 (not_a_node (mkNode i 0 0 None) i n) Hv).
Qed.

Lemma nodesById_is_Some (nodes : list Node) (i : NodeId) :
  is_Some (nodesById nodes !! i) ↔ i ∈ (node_id <$> nodes).
Proof.
  rewrite nodesById_lookup, <- not_eq_None_Some, last_filter_None.
  split; [apply dec_stable|auto].
Qed.

(** What the guards of the source see, when no node is called [__proto__]:
    a read is truthy for the identifiers of nodes and for the names every
    object inherits. *)
Lemma nodesById_truthy (nodes : list Node) (i : NodeId) :
  "__proto__" ∉ (node_id <$> nodes) →
  truthyValue (get (nodesById nodes) i) = true
  ↔ i ∈ (node_id <$> nodes) ∨ i ∈ inheritedNames.
Proof.
  intros Hproto. unfold get, nodesById.
  rewrite foldl_assign_proto. cbn [proto emptyObject].
  rewrite (proj2 (last_filter_None nodes "__proto__") Hproto).
  destruct (decide (i = "__proto__")) as [->|Hi].
  - rewrite foldl_assign_own_proto. cbn [own emptyObject]. rewrite lookup_empty.
    rewrite bool_decide_eq_true_2 by done. cbn.
    split; [intros _; right; left|done].
  - rewrite foldl_assign_own by done. cbn [own emptyObject]. rewrite lookup_empty.
    destruct (last (filter (λ n, node_id n = i) nodes)) as [n|] eqn:Hlast.
    + cbn. split; [intros _; left|done].
      apply dec_stable. intros Hout. apply last_filter_None in Hout. congruence.
    + apply last_filter_None in Hlast.
      rewrite bool_decide_eq_false_2 by done. unfold prototypeProperty.
      case_bool_decide as Hname; cbn.
      * split; [intros _; right; by right|done].
      * split; [done|]. intros [Hin|Hin]; [done|].
        apply elem_of_cons in Hin as [?|?]; done.
Qed.

(** X2.  A read of the node lookup gives a node exactly for the identifiers
    that nodes carry, and then the last node of the list with that
    identifier.  What the guards test is whether the read is truthy: when no
    node is called [__proto__], it is truthy for the identifiers of nodes
    and also for the names every object inherits from [Object.prototype],
    and for nothing else. *)
Theorem nodes_by_id_last_with_id (nodes : list Node) (i : NodeId) :
  nodesById nodes !! i = last (filter (λ n, node_id n = i) nodes)
  ∧ (is_Some (nodesById nodes !! i) ↔ i ∈ (node_id <$> nodes))
  ∧ (∀ n, nodesById nodes !! i = Some n → node_id n = i ∧ n ∈ nodes)
  ∧ ("__proto__" ∉ (node_id <$> nodes) →
     truthyValue (get (nodesById nodes) i) = true
     ↔ i ∈ (node_id <$> nodes) ∨ i ∈ inheritedNames).
Proof.
  split; [apply nodesById_lookup|]. split; [apply nodesById_is_Some|].
  split; [|apply nodesById_truthy].
  intros n Hn. rewrite nodesById_lookup in Hn. apply last_Some_elem_of in Hn.
  by apply list_elem_of_filter in Hn.
Qed.

Lemma nodes_by_id_last_with_id_witness :
  let older := mkNode "A" 10 20 None in
  let newer := mkNode "A" 11 21 (Some 3%Q) in
  node_id newer = "A" ∧ newer ∈ [older; newer].
Proof.
  intros older newer.
  apply (proj1 (proj2 (proj2 (nodes_by_id_last_with_id [older; newer] "A"))) newer).
  reflexivity.
Defined.

(** ** The edge index and the edge lines *)

Lemma edgePositions_nonempty edge f t : edgePositions edge f t ≠ [].
Proof.
  rewrite edgePositions_cases. by destruct (edge_geometry edge) as [[|p g]|].
Qed.

Lemma foldl_step_invariant (byId : NodeObject)
    (P : string → IndexEntry → Prop) (edges : list Edge)
    (byKey : gmap string IndexEntry) :
  (∀ k e, byKey !! k = Some e → P k e) →
  (∀ edge, edge ∈ edges → known byId edge →
     P (keyOf edge)
       (entryOf edge (get byId (edge_from_ edge)) (get byId (edge_to edge)))) →
  ∀ k e, foldl (edgeGeometryStep byId) byKey edges !! k = Some e → P k e.
Proof.
  revert byKey. induction edges as [|edge edges IH]; intros byKey Hm Hedges;
    cbn [foldl]; [done|].
  apply IH.
  - intros k e.
    destruct (decide (known byId edge)) as [Hk|Hk].
    + rewrite edgeGeometryStep_known by done.
      rewrite lookup_insert. case_decide as Hkey.
      * intros [= <-]. rewrite <- Hkey. apply Hedges; [by left|done].
      * apply Hm.
    + rewrite edgeGeometryStep_unknown by done. apply Hm.
  - intros edge' Hin. apply Hedges. by right.
Qed.

Lemma known_nodes (nodes : list Node) (edge : Edge) :
  "__proto__" ∉ (node_id <$> nodes) →
  edge_from_ edge ∉ inheritedNames → edge_to edge ∉ inheritedNames →
  known (nodesById nodes) edge
  ↔ edge_from_ edge ∈ (node_id <$> nodes) ∧ edge_to edge ∈ (node_id <$> nodes).
Proof.
  intros Hproto Hfrom Hto. unfold known.
  rewrite !nodesById_truthy by done. tauto.
Qed.

(** X3.  Every entry of the edge index comes from a connection of the input
    that passed the guard (both reads of the node lookup truthy); it is
    stored under the canonical key of its own [from] and [to], and its
    position list is not empty.  When no node is called [__proto__] and the
    entry's end points are not names inherited from [Object.prototype], both
    end points are known nodes. *)
Theorem edge_index_entries_wellformed nodes edges k e :
  edgeGeometryByKey nodes edges !! k = Some e →
  k = buildEdgeKey (entry_from e) (entry_to e)
  ∧ entry_positions e ≠ []
  ∧ (∃ edge,
       edge ∈ edges ∧ known (nodesById nodes) edge
       ∧ e = entryOf edge (get (nodesById nodes) (edge_from_ edge))
                          (get (nodesById nodes) (edge_to edge)))
  ∧ ("__proto__" ∉ (node_id <$> nodes) →
     entry_from e ∉ inheritedNames → entry_to e ∉ inheritedNames →
     is_Some (nodesById nodes !! entry_from e)
     ∧ is_Some (nodesById nodes !! entry_to e)).
Proof.
  unfold edgeGeometryByKey. revert k e.
  apply (foldl_step_invariant (nodesById nodes)); [done|].
  intros edge Hin Hknown. cbn [entryOf entry_from entry_to entry_positions].
  split; [done|]. split; [apply edgePositions_nonempty|].
  split; [by exists edge|].
  intros Hproto Hfrom Hto. rewrite !nodesById_is_Some.
  by apply known_nodes.
Qed.

Lemma edge_index_entries_wellformed_witness :
  "A|B" = buildEdgeKey "A" "B"
  ∧ defined <$> [(20, 10); (40, 30)]%Q ≠ []
  ∧ (∃ edge,
       edge ∈ [mkEdge "A" "B" 5 None]
       ∧ known (nodesById [mkNode "A" 10 20 None; mkNode "B" 30 40 None]) edge
       ∧ {| entry_from := "A"; entry_to := "B";
            entry_positions := defined <$> [(20, 10); (40, 30)]%Q |}
         = entryOf edge
             (get (nodesById [mkNode "A" 10 20 None; mkNode "B" 30 40 None])
                  (edge_from_ edge))
             (get (nodesById [mkNode "A" 10 20 None; mkNode "B" 30 40 None])
                  (edge_to edge)))
  ∧ ("__proto__" ∉ (node_id <$> [mkNode "A" 10 20 None; mkNode "B" 30 40 None]) →
     "A" ∉ inheritedNames → "B" ∉ inheritedNames →
     is_Some (nodesById [mkNode "A" 10 20 None; mkNode "B" 30 40 None] !! "A")
     ∧ is_Some (nodesById [mkNode "A" 10 20 None; mkNode "B" 30 40 None] !! "B")).
Proof.
  apply (edge_index_entries_wellformed
           [mkNode "A" 10 20 None; mkNode "B" 30 40 None]
           [mkEdge "A" "B" 5 None] "A|B"
           {| entry_from := "A"; entry_to := "B";
              entry_positions := [defined (20, 10)%Q; defined (40, 30)%Q] |}).
  reflexivity.
Defined.

(** X4.  The grey edge lines are one per connection that passes the guard
    (both reads of the node lookup truthy), in input order and with that
    connection's distance; none has an empty position list.  With no nodes
    there are no edge lines, provided every connection has an end point that
    is not a name inherited from [Object.prototype]. *)
Theorem edge_lines_one_per_known_edge nodes edges :
  line_distance <$> edgeLines nodes edges
  = edge_distance <$> filter (known (nodesById nodes)) edges
  ∧ Forall (λ line, line_positions line ≠ []) (edgeLines nodes edges)
  ∧ length (edgeLines nodes edges) ≤ length edges
  ∧ ((∀ edge, edge ∈ edges →
        edge_from_ edge ∉ inheritedNames ∨ edge_to edge ∉ inheritedNames) →
     edgeLines [] edges = []).
Proof.
  assert (Hguard : ∀ byId edge,
            negb (truthyValue (get byId (edge_from_ edge)))
            || negb (truthyValue (get byId (edge_to edge))) = false
            ↔ known byId edge).
  { intros byId edge. unfold known.
    destruct (truthyValue (get byId (edge_from_ edge))),
             (truthyValue (get byId (edge_to edge))); cbn; intuition congruence. }
  unfold edgeLines. cbn zeta. split; [|split; [|split]].
  - induction edges as [|edge edges IH]; [done|].
    rewrite filter_cons. cbn [omap list_omap].
    destruct (decide (known (nodesById nodes) edge)) as [Hk|Hk].
    + rewrite (proj2 (Hguard _ _) Hk). cbn [fmap list_fmap]. f_equal. exact IH.
    + destruct (negb _ || negb _) eqn:Hg; [exact IH|].
      by apply Hguard in Hg.
  - apply Forall_forall. intros line Hline.
    apply list_elem_of_omap in Hline as (edge & _ & Hline).
    destruct (negb _ || negb _); [done|].
    injection Hline as <-. apply edgePositions_nonempty.
  - induction edges as [|edge edges IH]; [done|]. cbn [omap list_omap].
    destruct (negb _ || negb _); cbn [length]; lia.
  - intros Hout. induction edges as [|edge edges IH]; [done|].
    cbn [omap list_omap]. rewrite IH by (intros e He; apply Hout; by right).
    destruct (negb _ || negb _) eqn:Hg; [done|].
    apply Hguard in Hg. destruct Hg as [Hf Ht]. exfalso.
    apply (nodesById_truthy [] _ (not_elem_of_nil _)) in Hf, Ht.
    destruct Hf as [Hf|Hf]; [by apply not_elem_of_nil in Hf|].
    destruct Ht as [Ht|Ht]; [by apply not_elem_of_nil in Ht|].
    destruct (Hout edge) as [Hno|Hno]; [by left|done..].
Qed.

Lemma edge_lines_one_per_known_edge_witness :
  edgeLines [] [mkEdge "A" "constructor" 5 None] = [].
Proof.
  apply (proj2 (proj2 (proj2 (edge_lines_one_per_known_edge []
                                [mkEdge "A" "constructor" 5 None])))).
  intros edge Hin. apply list_elem_of_singleton in Hin. subst edge.
  left. cbn [edge_from_]. apply (bool_decide_unpack _). reflexivity.
Defined.

Lemma index_entry_key nodes edges k e :
  edgeGeometryByKey nodes edges !! k = Some e →
  k = buildEdgeKey (entry_from e) (entry_to e) ∧ entry_positions e ≠ [].
Proof.
  unfold edgeGeometryByKey. revert k e.
  apply (foldl_step_invariant (nodesById nodes)); [done|].
  intros edge _ _. split; [done|apply edgePositions_nonempty].
Qed.

(** What the index holds under a key: the entry of the last connection
    with that key that passes the guard. *)
Lemma foldl_step_last_write (byId : NodeObject) (k : string) (edges : list Edge)
    (byKey : gmap string IndexEntry) :
  foldl (edgeGeometryStep byId) byKey edges !! k
  = match last (filter (λ edge, known byId edge ∧ keyOf edge = k) edges) with
    | Some edge =>
        Some (entryOf edge (get byId (edge_from_ edge)) (get byId (edge_to edge)))
    | None => byKey !! k
    end.
Proof.
  revert byKey. induction edges as [|edge edges IH]; intros byKey; cbn [foldl];
    [done|].
  rewrite IH, filter_cons.
  destruct (decide (known byId edge)) as [Hk|Hk].
  - rewrite edgeGeometryStep_known by done.
    destruct (decide (keyOf edge = k)) as [Hkey|Hkey].
    + rewrite decide_True by done. rewrite last_cons.
      destruct (last (filter _ edges)); [done|].
      rewrite <- Hkey. apply lookup_insert_eq.
    + rewrite decide_False by (by intros [_ ?]).
      destruct (last (filter _ edges)); [done|].
      by apply lookup_insert_ne.
  - rewrite edgeGeometryStep_unknown by done.
    by rewrite decide_False by (by intros [? _]).
Qed.

(** X24.  The edge index holds, under each key, the entry of the last
    connection of the input that has this canonical key and passes the guard
    (both reads of the node lookup truthy): later connections overwrite
    earlier ones, and a key is absent exactly when no connection with that
    key passes the guard. *)
Theorem edge_index_last_write_wins nodes edges k :
  edgeGeometryByKey nodes edges !! k
  = (λ edge, entryOf edge (get (nodesById nodes) (edge_from_ edge))
                          (get (nodesById nodes) (edge_to edge)))
    <$> last (filter (λ edge, known (nodesById nodes) edge ∧ keyOf edge = k) edges)
  ∧ (edgeGeometryByKey nodes edges !! k = None
     ↔ ∀ edge, edge ∈ edges → known (nodesById nodes) edge → keyOf edge ≠ k).
Proof.
  assert (Hlast : edgeGeometryByKey nodes edges !! k
    = (λ edge, entryOf edge (get (nodesById nodes) (edge_from_ edge))
                            (get (nodesById nodes) (edge_to edge)))
      <$> last (filter (λ edge, known (nodesById nodes) edge ∧ keyOf edge = k)
                       edges)).
  { unfold edgeGeometryByKey. rewrite foldl_step_last_write, lookup_empty.
    by destruct (last _). }
  split; [exact Hlast|]. rewrite Hlast, fmap_None, last_None. split.
  - intros Hnil edge Hin Hk Hkey.
    assert (Hedge : edge ∈ filter (λ edge, known (nodesById nodes) edge
                                           ∧ keyOf edge = k) edges)
      by by apply list_elem_of_filter.
    rewrite Hnil in Hedge. by apply not_elem_of_nil in Hedge.
  - intros Hnone.
    destruct (filter _ edges) as [|edge l] eqn:Hl; [done|].
    assert (Hedge : edge ∈ filter (λ edge, known (nodesById nodes) edge
                                           ∧ keyOf edge = k) edges)
      by (rewrite Hl; left).
    apply list_elem_of_filter in Hedge as [[Hk Hkey] Hin].
    by destruct (Hnone edge Hin Hk).
Qed.

(** ** The segments of a path *)

Section ResolverMore.
Context (byKey : gmap string IndexEntry) (byId : NodeObject).

(** What one pair emits: nothing, or one segment for a pair of distinct
    identifiers, with indexed positions (possibly reversed) or the straight
    line. *)
Lemma emittedFor_cases i u v :
  emittedFor byKey byId i u v = []
  ∨ (u ≠ v ∧ ∃ positions,
       emittedFor byKey byId i u v
       = [ {| seg_key := segmentKey u v i; seg_from := u; seg_to := v;
              seg_positions := positions |} ]
       ∧ ((∃ e, byKey !! buildEdgeKey u v = Some e
               ∧ (positions = entry_positions e
                  ∨ positions = reverse (entry_positions e)))
          ∨ (∃ f t, positions = straightLine f t))).
Proof.
  destruct (decide (u = v)) as [->|Hne]; [left; apply emittedFor_same|].
  destruct (byKey !! buildEdgeKey u v) as [e|] eqn:He.
  - right. split; [done|]. eexists. split; [by apply emittedFor_found|].
    left. exists e. split; [done|]. case_bool_decide; auto.
  - destruct (truthyValue (get byId u)) eqn:Hf;
      [destruct (truthyValue (get byId v)) eqn:Ht|].
    + right. split; [done|]. eexists.
      split; [by apply emittedFor_fallback|].
      right. by eexists _, _.
    + left. apply emittedFor_skip; auto.
    + left. apply emittedFor_skip; auto.
Qed.

Lemma emittedFor_short i u v : reverse (emittedFor byKey byId i u v)
                               = emittedFor byKey byId i u v.
Proof.
  destruct (emittedFor_cases i u v) as [->|(_ & positions & -> & _)]; done.
Qed.

Lemma emittedFrom_cons i u v rest :
  emittedFrom byKey byId i (u :: v :: rest)
  = emittedFor byKey byId i u v ++ emittedFrom byKey byId (S i) (v :: rest).
Proof. done. Qed.

Lemma emittedFrom_sublist i path :
  sublist ((λ s, (seg_from s, seg_to s)) <$> emittedFrom byKey byId i path)
          (zip path (tail path)).
Proof.
  revert i. induction path as [|u [|v rest] IH]; intros i;
    [apply sublist_nil..|].
  rewrite emittedFrom_cons. cbn [tail zip zip_with].
  destruct (emittedFor_cases i u v) as [->|(_ & positions & -> & _)].
  - apply sublist_cons, (IH (S i)).
  - cbn. apply sublist_skip, (IH (S i)).
Qed.

Lemma emittedFrom_length i path :
  length (emittedFrom byKey byId i path) ≤ length path - 1.
Proof.
  revert i. induction path as [|u [|v rest] IH]; intros i; [done..|].
  rewrite emittedFrom_cons, length_app. specialize (IH (S i)).
  cbn [length] in *.
  destruct (emittedFor_cases i u v) as [->|(_ & positions & -> & _)];
    cbn [length]; lia.
Qed.

Lemma emittedFrom_distinct_ends i path :
  (∀ k e, byKey !! k = Some e → entry_positions e ≠ []) →
  Forall (λ s, seg_from s ≠ seg_to s ∧ seg_positions s ≠ [])
         (emittedFrom byKey byId i path).
Proof.
  intros Hindex.
  revert i. induction path as [|u [|v rest] IH]; intros i; [by constructor..|].
  rewrite emittedFrom_cons. apply Forall_app. split; [|apply IH].
  destruct (emittedFor_cases i u v)
    as [->|(Hne & positions & -> & Hpos)]; [by constructor|].
  apply Forall_singleton. cbn. split; [done|].
  destruct Hpos as [(e & He & [->| ->])|(f & t & ->)]; [| |done].
  - by apply (Hindex _ _ He).
  - intros Hnil. apply (Hindex _ _ He).
    by rewrite <- (reverse_involutive (entry_positions e)), Hnil.
Qed.

Lemma emittedFrom_key_index i path seg :
  seg ∈ emittedFrom byKey byId i path →
  ∃ j u v, i ≤ j ∧ seg_key seg = segmentKey u v j.
Proof.
  revert i. induction path as [|u [|v rest] IH]; intros i;
    [by intros ?%not_elem_of_nil..|].
  rewrite emittedFrom_cons. intros [Hin|Hin]%elem_of_app.
  - destruct (emittedFor_cases i u v) as [Hnil|(_ & positions & Hone & _)].
    + rewrite Hnil in Hin. by apply not_elem_of_nil in Hin.
    + rewrite Hone in Hin. apply list_elem_of_singleton in Hin. subst seg.
      by exists i, u, v.
  - destruct (IH (S i) Hin) as (j & u' & v' & Hj & Hkey).
    exists j, u', v'. split; [lia|done].
Qed.
End ResolverMore.

(** The decimal index at the end of a key has no dash. *)
Lemma includes_pretty_N_go (x : N) (s : string) :
  includes "-" (pretty_N_go x s) = includes "-" s.
Proof.
  revert s. induction (N.lt_wf_0 x) as [x _ IH]; intros s.
  assert (x = 0 ∨ 0 < x)%N as [->|Hpos] by lia.
  - by rewrite pretty_N_go_0.
  - rewrite pretty_N_go_step by done.
    rewrite IH by (apply N.div_lt; lia).
    cbn [includes]. rewrite bool_decide_eq_false_2; [done|].
    unfold pretty_N_char. by repeat case_match.
Qed.

Lemma includes_pretty_nat (i : nat) : includes "-" (pretty i) = false.
Proof.
  unfold pretty, pretty_nat, pretty, pretty_N.
  case_decide; [done|]. by rewrite includes_pretty_N_go.
Qed.

Lemma segmentKey_index u v i u' v' j :
  segmentKey u v i = segmentKey u' v' j → i = j.
Proof.
  assert (Hshape : ∀ a b k,
            segmentKey a b k = (a +:+ "-" +:+ b) +:+ String "-" (pretty k)).
  { intros a b k. unfold segmentKey. by rewrite !append_assoc. }
  rewrite !Hshape. intros Heq.
  apply split_last_separator in Heq as [_ Heq];
    [|apply includes_pretty_nat..].
  by apply (inj pretty).
Qed.

(** X5.  The segments follow the path: their end points are consecutive
    pairs of the path, in path order and each pair at most once; a segment
    never joins an identifier to itself and never has an empty position
    list; there are at most [path.length - 1] of them. *)
Theorem segments_follow_path nodes edges path :
  ∃ segments,
    buildRouteSegments nodes edges path = Returned segments
    ∧ sublist ((λ s, (seg_from s, seg_to s)) <$> segments) (zip path (tail path))
    ∧ Forall (λ s, seg_from s ≠ seg_to s ∧ seg_positions s ≠ []) segments
    ∧ length segments ≤ length path - 1.
Proof.
  eexists. split; [apply buildRouteSegments_unrolled|].
  split; [apply emittedFrom_sublist|].
  split; [|apply emittedFrom_length].
  apply emittedFrom_distinct_ends.
  intros k e He. by apply (index_entry_key nodes edges k e).
Qed.

(** X6.  The keys of the segments of one path are pairwise distinct, also
    when the same pair of identifiers occurs more than once in the path. *)
Theorem segment_keys_unique nodes edges path :
  ∃ segments,
    buildRouteSegments nodes edges path = Returned segments
    ∧ NoDup (seg_key <$> segments).
Proof.
  eexists. split; [apply buildRouteSegments_unrolled|].
  generalize 0 as i.
  induction path as [|u [|v rest] IH]; intros i; [by constructor..|].
  rewrite emittedFrom_cons, fmap_app. apply NoDup_app.
  split; [|split; [|apply IH]].
  - destruct (emittedFor_cases (edgeGeometryByKey nodes edges) (nodesById nodes) i u v)
      as [->|(_ & positions & -> & _)]; [by constructor|].
    apply NoDup_singleton.
  - intros key Hhere Hlater.
    destruct (emittedFor_cases (edgeGeometryByKey nodes edges) (nodesById nodes) i u v)
      as [Hnil|(_ & positions & Hone & _)].
    + rewrite Hnil in Hhere. by apply not_elem_of_nil in Hhere.
    + rewrite Hone in Hhere. apply list_elem_of_singleton in Hhere.
      apply list_elem_of_fmap in Hlater as (seg & Hkey & Hseg).
      apply emittedFrom_key_index in Hseg as (j & u' & v' & Hj & Hkey').
      rewrite Hkey, Hkey' in Hhere. cbn in Hhere.
      apply segmentKey_index in Hhere. lia.
Qed.


(** Walking one pair the other way. *)
Lemma pair_backwards nodes edges i j u v :
  includes "|" u = false → includes "|" v = false →
  drawn <$> emittedFor (edgeGeometryByKey nodes edges) (nodesById nodes) j v u
  = backwards <$> emittedFor (edgeGeometryByKey nodes edges) (nodesById nodes) i u v.
Proof.
  intros Hu Hv.
  destruct (decide (u = v)) as [->|Hne]; [by rewrite !emittedFor_same|].
  destruct (edgeGeometryByKey nodes edges !! buildEdgeKey u v) as [e|] eqn:He.
  - rewrite (emittedFor_found _ _ i u v e) by done.
    rewrite (emittedFor_found _ _ j v u e)
      by (by rewrite 1?(buildEdgeKey_sym v u)).
    destruct (index_entry_key nodes edges _ e He) as [Hkey _].
    symmetry in Hkey. apply buildEdgeKey_pair in Hkey as [[Hf Ht]|[Hf Ht]];
      [| |done..].
    + rewrite (bool_decide_eq_true_2 (entry_from e = u ∧ entry_to e = v)) by done.
      rewrite (bool_decide_eq_false_2 (entry_from e = v ∧ entry_to e = u))
        by (intros [? _]; congruence).
      done.
    + rewrite (bool_decide_eq_false_2 (entry_from e = u ∧ entry_to e = v))
        by (intros [? _]; congruence).
      rewrite (bool_decide_eq_true_2 (entry_from e = v ∧ entry_to e = u)) by done.
      unfold drawn, backwards. cbn [fmap list_fmap seg_from seg_to seg_positions].
      by rewrite reverse_involutive.
  - assert (He' : edgeGeometryByKey nodes edges !! buildEdgeKey v u = None)
      by by rewrite (buildEdgeKey_sym v u).
    destruct (truthyValue (get (nodesById nodes) u)) eqn:Hf;
      [destruct (truthyValue (get (nodesById nodes) v)) eqn:Ht|].
    + rewrite (emittedFor_fallback _ _ i u v) by done.
      by rewrite (emittedFor_fallback _ _ j v u) by done.
    + by rewrite !emittedFor_skip by auto.
    + by rewrite !emittedFor_skip by auto.
Qed.

Lemma emittedFrom_backwards nodes edges i j (path : list NodeId) :
  Forall (λ id, includes "|" id = false) path →
  drawn <$> emittedFrom (edgeGeometryByKey nodes edges) (nodesById nodes) j
              (reverse path)
  = reverse (backwards <$> emittedFrom (edgeGeometryByKey nodes edges)
                             (nodesById nodes) i path).
Proof.
  revert i. induction path as [|u [|v rest] IH]; intros i Hpath; [done..|].
  apply Forall_cons in Hpath as [Hu Hrest].
  pose proof Hrest as [Hv _]%Forall_cons.
  rewrite emittedFrom_cons, fmap_app, reverse_app.
  rewrite <- (IH (S i) Hrest).
  rewrite (reverse_cons _ u), (reverse_cons _ v), <- app_assoc. cbn [app].
  rewrite (emittedFrom_app _ _ j (reverse rest) v u []).
  rewrite !fmap_app. cbn [emittedFrom]. rewrite fmap_nil, app_nil_r.
  rewrite <- fmap_reverse, emittedFor_short.
  by rewrite (pair_backwards nodes edges i (j + length (reverse rest)) u v).
Qed.

(** X7.  For a path whose identifiers contain no "|", resolving the reversed
    path draws the same polylines the other way round: the segments come in
    reverse order, each with its end points swapped and its positions
    reversed. *)
Theorem reversed_path_draws_reversed_segments nodes edges (path : list NodeId) :
  Forall (λ id, includes "|" id = false) path →
  ∃ forward backward,
    buildRouteSegments nodes edges path = Returned forward
    ∧ buildRouteSegments nodes edges (reverse path) = Returned backward
    ∧ drawn <$> backward = reverse (backwards <$> forward).
Proof.
  intros Hpath. eexists _, _.
  split; [apply buildRouteSegments_unrolled|].
  split; [apply buildRouteSegments_unrolled|].
  by apply emittedFrom_backwards.
Qed.

Lemma reversed_path_draws_reversed_segments_witness :
  let nodes := [mkNode "A" 10 20 None; mkNode "B" 30 40 None; mkNode "C" 50 60 None] in
  let edges := [mkEdge "A" "B" 5 (Some [(1, 2); (3, 4); (5, 6)]%Q)] in
  ∃ forward backward,
    buildRouteSegments nodes edges ["A"; "B"; "C"] = Returned forward
    ∧ buildRouteSegments nodes edges (reverse ["A"; "B"; "C"]) = Returned backward
    ∧ drawn <$> backward = reverse (backwards <$> forward).
Proof.
  intros nodes edges.
  apply (reversed_path_draws_reversed_segments nodes edges ["A"; "B"; "C"]).
  repeat constructor.
Defined.

(** ** Fuel prices *)

Lemma Qmin_either (a b : Q) : Qmin a b = a ∨ Qmin a b = b.
Proof. unfold Qmin, GenericMinMax.gmin. destruct (a ?= b)%Q; auto. Qed.

Lemma Qmax_either (a b : Q) : Qmax a b = a ∨ Qmax a b = b.
Proof. unfold Qmax, GenericMinMax.gmax. destruct (a ?= b)%Q; auto. Qed.

Lemma foldl_Qmin_least (values : list Q) (value : Q) :
  ∀ x, x ∈ value :: values → (foldl Qmin value values <= x)%Q.
Proof.
  revert value. induction values as [|y values IH]; intros value x Hx; cbn [foldl].
  - apply list_elem_of_singleton in Hx. subst x. apply Qle_refl.
  - assert (Hhead : (foldl Qmin (Qmin value y) values <= Qmin value y)%Q)
      by (apply IH; left).
    apply elem_of_cons in Hx as [->|Hx].
    + eapply Qle_trans; [exact Hhead|apply Q.le_min_l].
    + apply elem_of_cons in Hx as [->|Hx].
      * eapply Qle_trans; [exact Hhead|apply Q.le_min_r].
      * apply IH. by right.
Qed.

Lemma foldl_Qmax_greatest (values : list Q) (value : Q) :
  ∀ x, x ∈ value :: values → (x <= foldl Qmax value values)%Q.
Proof.
  revert value. induction values as [|y values IH]; intros value x Hx; cbn [foldl].
  - apply list_elem_of_singleton in Hx. subst x. apply Qle_refl.
  - assert (Hhead : (Qmax value y <= foldl Qmax (Qmax value y) values)%Q)
      by (apply IH; left).
    apply elem_of_cons in Hx as [->|Hx].
    + eapply Qle_trans; [apply Q.le_max_l|exact Hhead].
    + apply elem_of_cons in Hx as [->|Hx].
      * eapply Qle_trans; [apply Q.le_max_r|exact Hhead].
      * apply IH. by right.
Qed.

Lemma foldl_Qmin_attained (values : list Q) (value : Q) :
  foldl Qmin value values ∈ value :: values.
Proof.
  revert value. induction values as [|y values IH]; intros value; cbn [foldl];
    [left|].
  specialize (IH (Qmin value y)).
  apply elem_of_cons in IH as [->|IH]; [|by do 2 right].
  destruct (Qmin_either value y) as [-> | ->]; [left|right; left].
Qed.

Lemma foldl_Qmax_attained (values : list Q) (value : Q) :
  foldl Qmax value values ∈ value :: values.
Proof.
  revert value. induction values as [|y values IH]; intros value; cbn [foldl];
    [left|].
  specialize (IH (Qmax value y)).
  apply elem_of_cons in IH as [->|IH]; [|by do 2 right].
  destruct (Qmax_either value y) as [-> | ->]; [left|right; left].
Qed.

Lemma fuelValues_elem (nodes : list Node) (p : Q) :
  p ∈ fuelValues nodes ↔ ∃ n, n ∈ nodes ∧ node_fuel_price n = Some p.
Proof. apply list_elem_of_omap. Qed.

Lemma fuelPriceRange_bounds nodes n p :
  n ∈ nodes → node_fuel_price n = Some p →
  ((fuelPriceRange nodes).1 <= p <= (fuelPriceRange nodes).2)%Q.
Proof.
  intros Hn Hp.
  assert (Hin : p ∈ fuelValues nodes) by (apply fuelValues_elem; eauto).
  unfold fuelPriceRange. destruct (fuelValues nodes) as [|value values].
  - by apply not_elem_of_nil in Hin.
  - split; [by apply foldl_Qmin_least|by apply foldl_Qmax_greatest].
Qed.

Lemma fuelPriceRange_attained nodes :
  fuelValues nodes ≠ [] →
  ∃ cheapest dearest,
    cheapest ∈ nodes ∧ dearest ∈ nodes
    ∧ node_fuel_price cheapest = Some (fuelPriceRange nodes).1
    ∧ node_fuel_price dearest = Some (fuelPriceRange nodes).2.
Proof.
  intros Hvalues. unfold fuelPriceRange.
  destruct (fuelValues nodes) as [|value values] eqn:Hv; [done|].
  pose proof (foldl_Qmin_attained values value) as Hmin.
  pose proof (foldl_Qmax_attained values value) as Hmax.
  rewrite <- Hv in Hmin, Hmax.
  apply fuelValues_elem in Hmin as (cheapest & ? & ?).
  apply fuelValues_elem in Hmax as (dearest & ? & ?).
  by exists cheapest, dearest.
Qed.

(** X8.  The fuel-price range of the legend is (0, 0) when no node has a
    price.  Otherwise every priced node lies between the minimum and the
    maximum, and each of the two is the price of some node. *)
Theorem fuel_price_range_bounds nodes :
  ((∀ n, n ∈ nodes → node_fuel_price n = None) →
   fuelPriceRange nodes = (0, 0)%Q)
  ∧ (∀ n p, n ∈ nodes → node_fuel_price n = Some p →
       ((fuelPriceRange nodes).1 <= p <= (fuelPriceRange nodes).2)%Q)
  ∧ ((∃ n p, n ∈ nodes ∧ node_fuel_price n = Some p) →
     ∃ cheapest dearest,
       cheapest ∈ nodes ∧ dearest ∈ nodes
       ∧ node_fuel_price cheapest = Some (fuelPriceRange nodes).1
       ∧ node_fuel_price dearest = Some (fuelPriceRange nodes).2).
Proof.
  split; [|split].
  - intros Hnone. unfold fuelPriceRange.
    destruct (fuelValues nodes) as [|value values] eqn:Hv; [done|].
    assert (Hin : value ∈ fuelValues nodes) by (rewrite Hv; left).
    apply fuelValues_elem in Hin as (n & Hn & Hp).
    by rewrite (Hnone n Hn) in Hp.
  - apply fuelPriceRange_bounds.
  - intros (n & p & Hn & Hp). apply fuelPriceRange_attained.
    intros Hnil.
    assert (Hin : p ∈ fuelValues nodes) by (apply fuelValues_elem; eauto).
    rewrite Hnil in Hin. by apply not_elem_of_nil in Hin.
Qed.

Lemma fuel_price_range_bounds_witness :
  let nodes := [mkNode "A" 10 20 (Some 3.5%Q); mkNode "B" 30 40 None;
                mkNode "C" 50 60 (Some 2.9%Q)] in
  ((fuelPriceRange nodes).1 <= 3.5 <= (fuelPriceRange nodes).2)%Q.
Proof.
  intros nodes.
  apply (proj1 (proj2 (fuel_price_range_bounds nodes)) (mkNode "A" 10 20 (Some 3.5%Q)));
    [left|reflexivity].
Defined.

Lemma straightLine_nodes (byId : NodeObject) (u v : NodeId) (f t : Node) :
  byId !! u = Some f → byId !! v = Some t →
  straightLine (get byId u) (get byId v)
  = defined <$> [(node_y f, node_x f); (node_y t, node_x t)].
Proof. intros Hf%lookup_get Ht%lookup_get. by rewrite Hf, Ht. Qed.

(** X25.  The segment resolver returns for every node list, connection list
    and path: it never throws.  For a consecutive pair [(u, v)] of distinct
    identifiers whose canonical key is not in the index, it emits one
    two-point segment built from the two reads of the node lookup when both
    reads are truthy, and nothing for the pair when either is falsy.  When
    both reads are nodes, the two points are the coordinates of [u] and of
    [v]. *)
Theorem resolver_fallback_follows_guard nodes edges path :
  (∃ segments, buildRouteSegments nodes edges path = Returned segments)
  ∧ (∀ i u v,
       path !! i = Some u → path !! S i = Some v → u ≠ v →
       edgeGeometryByKey nodes edges !! buildEdgeKey u v = None →
       ∃ before after,
         buildRouteSegments nodes edges (take (S i) path) = Returned before ∧
         if truthyValue (get (nodesById nodes) u)
            && truthyValue (get (nodesById nodes) v)
         then
           let segment :=
             {| seg_key := segmentKey u v i; seg_from := u; seg_to := v;
                seg_positions := straightLine (get (nodesById nodes) u)
                                              (get (nodesById nodes) v) |} in
           buildRouteSegments nodes edges (take (S (S i)) path)
           = Returned (before ++ [segment]) ∧
           buildRouteSegments nodes edges path
           = Returned (before ++ segment :: after)
         else
           buildRouteSegments nodes edges (take (S (S i)) path)
           = Returned before ∧
           buildRouteSegments nodes edges path = Returned (before ++ after))
  ∧ (∀ u v f t,
       nodesById nodes !! u = Some f → nodesById nodes !! v = Some t →
       truthyValue (get (nodesById nodes) u)
       && truthyValue (get (nodesById nodes) v) = true
       ∧ straightLine (get (nodesById nodes) u) (get (nodesById nodes) v)
         = defined <$> [(node_y f, node_x f); (node_y t, node_x t)]).
Proof.
  split; [|split].
  - eexists. apply buildRouteSegments_unrolled.
  - intros i u v Hu Hv Hne Hmiss.
    destruct (buildRouteSegments_pair nodes edges path i u v Hu Hv)
      as (before & after & H1 & H2 & H3).
    exists before, after. split; [done|].
    destruct (truthyValue (get (nodesById nodes) u)) eqn:Hf;
      [destruct (truthyValue (get (nodesById nodes) v)) eqn:Ht|]; cbn [andb].
    + by rewrite (emittedFor_fallback _ _ i u v Hne Hmiss Hf Ht) in H2, H3.
    + rewrite (emittedFor_skip _ _ i u v Hmiss) in H2, H3 by by right.
      by rewrite app_nil_r in H2.
    + rewrite (emittedFor_skip _ _ i u v Hmiss) in H2, H3 by by left.
      by rewrite app_nil_r in H2.
  - intros u v f t Hf Ht. split; [|by apply straightLine_nodes].
    by rewrite !lookup_truthy by by eexists.
Qed.

Lemma resolver_fallback_follows_guard_witness :
  let nodes := [mkNode "A" 10 20 None; mkNode "B" 30 40 None] in
  truthyValue (get (nodesById nodes) "A")
  && truthyValue (get (nodesById nodes) "B") = true
  ∧ straightLine (get (nodesById nodes) "A") (get (nodesById nodes) "B")
    = defined <$> [(20, 10); (40, 30)]%Q.
Proof.
  intros nodes.
  apply (proj2 (proj2 (resolver_fallback_follows_guard nodes [] ["A"; "B"]))
           "A" "B" (mkNode "A" 10 20 None) (mkNode "B" 30 40 None));
    reflexivity.
Defined.

(** ** Node labels *)

Lemma includes_firstField (c : ascii) (s : string) :
  includes c (firstField c s) = false.
Proof.
  induction s as [|x s IH]; [done|]. cbn [firstField].
  case_bool_decide as Hx; [done|]. cbn [includes].
  by rewrite (bool_decide_eq_false_2 _ Hx), IH.
Qed.

Lemma firstField_split (c : ascii) (s : string) :
  includes c s = true → ∃ rest, s = firstField c s +:+ String c rest.
Proof.
  induction s as [|x s IH]; [done|]. cbn [includes firstField].
  case_bool_decide as Hx.
  - intros _. subst x. by exists s.
  - cbn [orb]. intros Hs. destruct (IH Hs) as [rest Hrest].
    exists rest. rewrite append_cons. by f_equal.
Qed.

(** X11.  The text of a node label never contains a comma: it is the label
    itself when the label has no comma, and otherwise the part of the label
    before its first comma. *)
Theorem node_label_drops_state isOnPath label :
  includes "," (label_cityName (createNodeIcon isOnPath label)) = false
  ∧ (includes "," label = false →
     label_cityName (createNodeIcon isOnPath label) = label)
  ∧ (includes "," label = true →
     ∃ rest, label = label_cityName (createNodeIcon isOnPath label)
                     +:+ String "," rest).
Proof.
  unfold createNodeIcon. cbn [label_cityName].
  destruct (includes "," label) eqn:Hcomma.
  - split; [apply includes_firstField|]. split; [done|].
    intros _. by apply firstField_split.
  - done.
Qed.

Lemma node_label_drops_state_witness :
  ∃ rest, "Austin, TX"
          = label_cityName (createNodeIcon true "Austin, TX") +:+ String "," rest.
Proof.
  apply (proj2 (proj2 (node_label_drops_state true "Austin, TX"))).
  reflexivity.
Defined.

End RouteMapMore.

(** * Further properties of app/page.tsx *)

Module PageMore.
Import Page PageFacts.

(** ** The request *)

(** X12.  The query of a request always carries the algorithm and a seed
    that is not empty: the trimmed seed text, or "42" when that is empty.
    The parameters [start] and [goal] are sent together or not at all; they
    are sent exactly when the request uses the current selection and both
    selected identifiers are non-empty, and they carry those identifiers. *)
Theorem route_query_parameters (trim : string → string) algorithm seed req :
  ∃ seedValue,
    seedValue ≠ EmptyString
    ∧ (trim seed = EmptyString → seedValue = "42")
    ∧ (trim seed ≠ EmptyString → seedValue = trim seed)
    ∧ ((useCurrentStartGoal req = true
        ∧ selectedFrom req ≠ EmptyString ∧ selectedTo req ≠ EmptyString) →
       routeQuery trim algorithm seed req
       = [("algorithm", algorithmName algorithm); ("seed", seedValue);
          ("start", selectedFrom req); ("goal", selectedTo req)])
    ∧ (¬ (useCurrentStartGoal req = true
          ∧ selectedFrom req ≠ EmptyString ∧ selectedTo req ≠ EmptyString) →
       routeQuery trim algorithm seed req
       = [("algorithm", algorithmName algorithm); ("seed", seedValue)]).
Proof.
  exists (if bool_decide (trim seed = EmptyString) then "42" else trim seed).
  split; [by case_bool_decide|].
  split; [intros Hblank; by rewrite bool_decide_eq_true_2|].
  split; [intros Hgiven; by rewrite bool_decide_eq_false_2|].
  unfold routeQuery. split.
  - intros (-> & Hfrom & Hto).
    by rewrite !bool_decide_eq_false_2 by done.
  - intros Hnot.
    destruct (useCurrentStartGoal req); [|done].
    destruct (decide (selectedFrom req = EmptyString)) as [Hfrom|Hfrom];
      [by rewrite (bool_decide_eq_true_2 _ Hfrom)|].
    destruct (decide (selectedTo req = EmptyString)) as [Hto|Hto];
      [by rewrite (bool_decide_eq_true_2 _ Hto), andb_false_r|].
    by destruct Hnot.
Qed.

Lemma route_query_parameters_witness :
  routeQuery (λ seed, seed) greedy EmptyString
    {| useCurrentStartGoal := true; selectedFrom := "A"; selectedTo := "B" |}
  = [("algorithm", "greedy"); ("seed", "42"); ("start", "A"); ("goal", "B")].
Proof.
  destruct (route_query_parameters (λ seed, seed) greedy EmptyString
              {| useCurrentStartGoal := true; selectedFrom := "A";
                 selectedTo := "B" |})
    as (seedValue & _ & Hblank & _ & Hsent & _).
  rewrite Hsent by (split; [reflexivity|split; discriminate]).
  rewrite Hblank by reflexivity. reflexivity.
Defined.

(** X13.  While the submit button is enabled, submitting sends a request
    that uses the current selection, and its query carries [start] and
    [goal], the selected identifiers; both are non-empty. *)
Theorem enabled_submit_sends_selection (trim : string → string) algorithm seed s :
  submitDisabled s = false →
  from s ≠ EmptyString ∧ to s ≠ EmptyString ∧ loading s = false
  ∧ routeQuery trim algorithm seed (onSubmit s)
    = [("algorithm", algorithmName algorithm);
       ("seed", if bool_decide (trim seed = EmptyString) then "42" else trim seed);
       ("start", from s); ("goal", to s)].
Proof.
  unfold submitDisabled. intros Henabled.
  apply orb_false_iff in Henabled as [Henabled Hto].
  apply orb_false_iff in Henabled as [Hloading Hfrom].
  apply bool_decide_eq_false in Hfrom, Hto.
  split; [done|]. split; [done|]. split; [done|].
  unfold routeQuery, onSubmit. cbn [useCurrentStartGoal selectedFrom selectedTo].
  by rewrite (bool_decide_eq_false_2 _ Hfrom), (bool_decide_eq_false_2 _ Hto).
Qed.

Lemma enabled_submit_sends_selection_witness :
  let s := {| nodes := [mkNode "A" 10 20 None; mkNode "B" 30 40 None];
              edges := []; comparison := None; route := None;
              baselinePath := []; from := "A"; to := "B";
              loading := false; error := None |} in
  from s ≠ EmptyString ∧ to s ≠ EmptyString ∧ loading s = false
  ∧ routeQuery (λ seed, seed) astar "7" (onSubmit s)
    = [("algorithm", "astar"); ("seed", "7"); ("start", "A"); ("goal", "B")].
Proof.
  intros s.
  exact (enabled_submit_sends_selection (λ seed, seed) astar "7" s eq_refl).
Defined.

(** ** The selection *)

Lemma backfillSummary_path r : route_path (backfillSummary r) = route_path r.
Proof. unfold backfillSummary. by destruct (route_summary r). Qed.

(** X14.  A request that uses the current selection (a submit) never changes
    the selected start and end, whatever its fetch settles to. *)
Theorem submit_keeps_selection req fetched s :
  useCurrentStartGoal req = true →
  from (fetchRouteSettle req fetched s) = from s
  ∧ to (fetchRouteSettle req fetched s) = to s.
Proof.
  intros Hcur. destruct s.
  unfold fetchRouteSettle, tryCatchFinally, tryBlock, commitResponse,
    catchBlock, finallyBlock.
  rewrite Hcur.
  destruct fetched as [[[] status [data|e]]|e]; try destruct e;
    handler_unfold; done.
Qed.

Lemma submit_keeps_selection_witness :
  let s := {| nodes := []; edges := []; comparison := None; route := None;
              baselinePath := []; from := "A"; to := "B";
              loading := true; error := None |} in
  let req := {| useCurrentStartGoal := true; selectedFrom := "A"; selectedTo := "B" |} in
  let data := {| resp_api_version := None; resp_nodes := []; resp_edges := [];
                 resp_route := Some (mkRoute ["X"; "Y"] None None 0 0 None None);
                 resp_baseline_path := None; resp_comparison := None |} in
  from (fetchRouteSettle req (answered 200 data) s) = "A"
  ∧ to (fetchRouteSettle req (answered 200 data) s) = "B".
Proof.
  intros s req data.
  exact (submit_keeps_selection req (answered 200 data) s eq_refl).
Defined.

(** X15.  A request that does not use the current selection (the initial
    fetch) seeds the selection from a non-empty path when its response
    commits: the start becomes the first identifier of the path if the
    request was called with an empty start, the end becomes the last one if
    it was called with an empty end, and otherwise they stay as they are.
    An empty path changes neither. *)
Theorem initial_fetch_seeds_selection req status data r s :
  useCurrentStartGoal req = false →
  resp_route data = Some r →
  let s' := fetchRouteSettle req (answered status data) s in
  (∀ first final,
     head (route_path r) = Some first → last (route_path r) = Some final →
     from s' = (if bool_decide (selectedFrom req = EmptyString) then first else from s)
     ∧ to s' = (if bool_decide (selectedTo req = EmptyString) then final else to s))
  ∧ (route_path r = [] → from s' = from s ∧ to s' = to s).
Proof.
  intros Hcur Hroute s'. subst s'. rewrite fetchRouteSettle_answered.
  destruct s. unfold tryCatchFinally, commitResponse, finallyBlock.
  rewrite Hcur, Hroute. handler_unfold. rewrite backfillSummary_path.
  split.
  - intros first final Hfirst Hfinal. rewrite Hfirst, Hfinal.
    rewrite bool_decide_eq_true_2
      by (destruct (route_path r); [done|cbn; lia]).
    by destruct (bool_decide (selectedFrom req = EmptyString)),
                (bool_decide (selectedTo req = EmptyString)).
  - by intros ->.
Qed.

Lemma initial_fetch_seeds_selection_witness :
  let req := {| useCurrentStartGoal := false; selectedFrom := EmptyString;
                selectedTo := EmptyString |} in
  let r := mkRoute ["X"; "Y"; "Z"] None None 0 5 None None in
  let data := {| resp_api_version := None; resp_nodes := []; resp_edges := [];
                 resp_route := Some r;
                 resp_baseline_path := None; resp_comparison := None |} in
  from (fetchRouteSettle req (answered 200 data) initialState) = "X"
  ∧ to (fetchRouteSettle req (answered 200 data) initialState) = "Z".
Proof.
  intros req r data.
  exact (proj1 (initial_fetch_seeds_selection req 200 data r initialState
                  eq_refl eq_refl) "X" "Z" eq_refl eq_refl).
Defined.

(** ** Loading and error *)

Lemma tryCatchFinally_loading (body : Handler ()) s :
  loading (tryCatchFinally body catchBlock finallyBlock s).2 = false.
Proof.
  unfold tryCatchFinally, catchBlock, finallyBlock.
  destruct (body s) as [[[]|e] s']; handler_unfold; done.
Qed.

(** X16.  Starting a request sets the loading flag and clears the error and
    changes nothing else.  However a request settles, the loading flag is
    off afterwards.  A response that commits leaves the error as it is, so
    after a request that is started and then commits there is no error. *)
Theorem loading_and_error_flags :
  (∀ s, fetchRouteStart s
        = {| nodes := nodes s; edges := edges s; comparison := comparison s;
             route := route s; baselinePath := baselinePath s;
             from := from s; to := to s; loading := true; error := None |})
  ∧ (∀ req fetched s, loading (fetchRouteSettle req fetched s) = false)
  ∧ (∀ req status data s,
       commits req data →
       error (fetchRouteSettle req (answered status data) s) = error s
       ∧ error (run s [Issue req; Settle req (answered status data)]) = None).
Proof.
  assert (Hkeeps : ∀ req status data s,
            commits req data →
            error (fetchRouteSettle req (answered status data) s) = error s).
  { intros req status data s Hcommits. rewrite fetchRouteSettle_answered.
    destruct (commitResponse_commits req data s Hcommits)
      as (s' & Hs' & _ & _ & Herror).
    unfold tryCatchFinally. rewrite Hs'. by destruct s'. }
  split; [|split].
  - intros s. by destruct s.
  - intros req fetched s. apply tryCatchFinally_loading.
  - intros req status data s Hcommits. split; [by apply Hkeeps|].
    unfold run. cbn [foldl turn]. rewrite Hkeeps by done. by destruct s.
Qed.

Lemma loading_and_error_flags_witness :
  let req := {| useCurrentStartGoal := true; selectedFrom := "A"; selectedTo := "B" |} in
  let data := {| resp_api_version := None; resp_nodes := []; resp_edges := [];
                 resp_route := None;
                 resp_baseline_path := None; resp_comparison := None |} in
  let s := {| nodes := []; edges := []; comparison := None; route := None;
              baselinePath := []; from := "A"; to := "B";
              loading := false; error := Some "Request failed with status 500" |} in
  error (fetchRouteSettle req (answered 200 data) s)
  = Some "Request failed with status 500"
  ∧ error (run s [Issue req; Settle req (answered 200 data)]) = None.
Proof.
  intros req data s.
  apply (proj2 (proj2 loading_and_error_flags) req 200 data s).
  left. reflexivity.
Defined.

(** X17.  A 2xx response without a route, on a request that does not use the
    current selection, fails after the graph has been written: nodes, edges
    and comparison are those of the response, the route and the baseline path
    are cleared, an error is shown, and the selection is unchanged. *)
Theorem routeless_response_keeps_new_graph req status data s :
  useCurrentStartGoal req = false →
  resp_route data = None →
  let s' := fetchRouteSettle req (answered status data) s in
  nodes s' = resp_nodes data ∧ edges s' = resp_edges data
  ∧ comparison s' = resp_comparison data
  ∧ route s' = None ∧ baselinePath s' = []
  ∧ is_Some (error s') ∧ loading s' = false
  ∧ from s' = from s ∧ to s' = to s.
Proof.
  intros Hcur Hroute s'. subst s'. rewrite fetchRouteSettle_answered.
  destruct s. unfold tryCatchFinally, commitResponse, catchBlock, finallyBlock.
  rewrite Hcur, Hroute, list_fmap_id, copy_edges. handler_unfold.
  repeat split; try reflexivity. by eexists.
Qed.

Lemma routeless_response_keeps_new_graph_witness :
  let req := {| useCurrentStartGoal := false; selectedFrom := EmptyString;
                selectedTo := EmptyString |} in
  let data := {| resp_api_version := None;
                 resp_nodes := [mkNode "A" 10 20 None]; resp_edges := [];
                 resp_route := None;
                 resp_baseline_path := Some ["A"]; resp_comparison := None |} in
  let s' := fetchRouteSettle req (answered 200 data) initialState in
  nodes s' = [mkNode "A" 10 20 None] ∧ edges s' = []
  ∧ comparison s' = None
  ∧ route s' = None ∧ baselinePath s' = []
  ∧ is_Some (error s') ∧ loading s' = false
  ∧ from s' = EmptyString ∧ to s' = EmptyString.
Proof.
  intros req data.
  exact (routeless_response_keeps_new_graph req 200 data initialState eq_refl eq_refl).
Defined.

(** X18.  A 2xx response whose body cannot be parsed is handled like a
    failed fetch: the error is the message of the rejection (or "Failed to
    fetch" when what was thrown is not an Error), the route and the baseline
    path are cleared, and nodes, edges, comparison and selection stay. *)
Theorem unparseable_body_is_a_failure req status e s :
  fetchRouteSettle req
    (Fulfilled {| res_ok := true; res_status := status; res_json := Rejected e |}) s
  = {| nodes := nodes s; edges := edges s; comparison := comparison s;
       route := None; baselinePath := [];
       from := from s; to := to s; loading := false;
       error := Some match e with
                     | ErrorInstance message => message
                     | OtherValue => "Failed to fetch"
                     end |}.
Proof.
  destruct s, e;
    unfold fetchRouteSettle, tryCatchFinally, tryBlock, catchBlock, finallyBlock;
    handler_unfold; reflexivity.
Qed.

(** ** The summary path and the summary panel *)

Lemma keepChanges_sublist prev (path : list NodeId) :
  sublist (keepChanges prev path) path.
Proof.
  revert prev. induction path as [|node path IH]; intros prev; cbn;
    [apply sublist_nil|].
  case_bool_decide; [apply sublist_cons|apply sublist_skip]; apply IH.
Qed.

Lemma pushIfNew_last cleaned node : last (pushIfNew cleaned node) = Some node.
Proof.
  unfold pushIfNew.
  destruct (decide (last cleaned = Some node)) as [Hlast|Hlast].
  - rewrite (bool_decide_eq_true_2 _ Hlast), orb_false_r.
    case_bool_decide; [by rewrite last_snoc|done].
  - rewrite (bool_decide_eq_false_2 _ Hlast), orb_true_r. apply last_snoc.
Qed.

Lemma foldl_pushIfNew_last (path cleaned : list NodeId) :
  last (foldl pushIfNew cleaned path) = last (cleaned ++ path).
Proof.
  revert cleaned. induction path as [|node path IH]; intros cleaned; cbn [foldl].
  - by rewrite app_nil_r.
  - rewrite IH, (last_app cleaned), !last_app, pushIfNew_last, last_cons.
    by destruct (last path).
Qed.

(** X19.  The summary path is a cleaned-up copy of the route path: it keeps
    the order, starts and ends with the same identifiers, and cleaning it
    again changes nothing.  Without a route it is empty. *)
Theorem summary_path_keeps_ends (r : Route) :
  sublist (summaryPath (Some r)) (route_path r)
  ∧ head (summaryPath (Some r)) = head (route_path r)
  ∧ last (summaryPath (Some r)) = last (route_path r)
  ∧ (∀ r', route_path r' = summaryPath (Some r) →
           summaryPath (Some r') = summaryPath (Some r))
  ∧ summaryPath None = [].
Proof.
  split; [|split; [|split; [|split; [|done]]]].
  - rewrite summaryPath_keepChanges. apply keepChanges_sublist.
  - rewrite summaryPath_keepChanges. by destruct (route_path r).
  - unfold summaryPath. case_bool_decide as Hlen.
    + apply nil_length_inv in Hlen. by rewrite Hlen.
    + apply foldl_pushIfNew_last.
  - intros r' Hpath. rewrite (summaryPath_keepChanges r'), Hpath.
    apply keepChanges_unchanged; [done|].
    intros i a b. rewrite summaryPath_keepChanges.
    apply keepChanges_no_repeat.
Qed.

Lemma summary_path_keeps_ends_witness :
  let r := mkRoute ["A"; "A"; "B"; "C"; "C"] None None 0 0 None None in
  let r' := mkRoute ["A"; "B"; "C"] None None 0 0 None None in
  summaryPath (Some r') = summaryPath (Some r).
Proof.
  intros r r'.
  apply (proj1 (proj2 (proj2 (proj2 (summary_path_keeps_ends r)))) r').
  reflexivity.
Defined.

(** X20.  After a response with a non-empty route path has committed, the
    summary panel shows the route details with a defined distance and fuel
    cost: those of the response's summary when it has one, and otherwise
    its total distance and fuel cost, 0 when missing.  It shows the
    comparison of the same response, and one leg less than the summary path
    has identifiers. *)
Theorem panel_after_commit req status data r s :
  commits req data →
  resp_route data = Some r →
  route_path r ≠ [] →
  routeSummaryPanel (fetchRouteSettle req (answered status data) s)
  = Details
      (Some match route_summary r with
            | Some given => distance_km given
            | None => default 0%Q (route_total_distance r)
            end)
      (Some match route_summary r with
            | Some given => fuel_cost given
            | None => default 0%Q (route_fuel_cost r)
            end)
      (resp_comparison data)
      (length (summaryPath (Some r)) - 1)
      (route_expanded r)
      (summaryPath (Some r)).
Proof.
  intros Hcommits Hroute Hpath.
  pose proof (fetchRouteSettle_commits req status data s Hcommits) as Hvm.
  unfold routeSummaryPanel.
  replace (route (fetchRouteSettle req (answered status data) s))
    with (Some (backfillSummary r))
    by (apply (f_equal vm_route) in Hvm; cbn in Hvm; by rewrite Hroute in Hvm).
  replace (comparison (fetchRouteSettle req (answered status data) s))
    with (resp_comparison data)
    by (by apply (f_equal vm_comparison) in Hvm).
  assert (Hsame : summaryPath (Some (backfillSummary r)) = summaryPath (Some r))
    by (unfold summaryPath; by rewrite backfillSummary_path).
  rewrite Hsame, backfillSummary_path.
  rewrite bool_decide_eq_true_2 by (destruct (route_path r); [done|cbn; lia]).
  unfold backfillSummary.
  destruct (route_summary r) as [given|] eqn:Hsummary; cbn;
    by rewrite ?Hsummary.
Qed.

Lemma panel_after_commit_witness :
  let req := {| useCurrentStartGoal := true; selectedFrom := "A"; selectedTo := "B" |} in
  let r := mkRoute ["A"; "A"; "B"] (Some 120.4%Q) None 0 7 None None in
  let data := {| resp_api_version := None; resp_nodes := []; resp_edges := [];
                 resp_route := Some r;
                 resp_baseline_path := None; resp_comparison := None |} in
  routeSummaryPanel (fetchRouteSettle req (answered 200 data) initialState)
  = Details (Some 120.4%Q) (Some 0%Q) None 1 7 ["A"; "B"].
Proof.
  intros req r data.
  apply (panel_after_commit req 200 data r initialState);
    [left; reflexivity | reflexivity | discriminate].
Defined.

(** ** The initial fetch *)

Lemma initialFetchEffects_done runs : initialFetchEffects runs true = (true, []).
Proof. induction runs as [|runs IH]; cbn; [done|]. by rewrite IH. Qed.

(** X21.  However often the guarded effect runs, it calls [fetchRoute]
    exactly once, at its first run, without using the current selection and
    with empty start and end; once the ref is set it never calls it. *)
Theorem initial_fetch_happens_once runs :
  initialFetchEffects runs true = (true, [])
  ∧ (0 < runs →
     initialFetchEffects runs false
     = (true, [ {| useCurrentStartGoal := false; selectedFrom := EmptyString;
                   selectedTo := EmptyString |} ])).
Proof.
  split; [apply initialFetchEffects_done|].
  destruct runs as [|runs]; [lia|]. intros _. cbn.
  by rewrite initialFetchEffects_done.
Qed.

Lemma initial_fetch_happens_once_witness :
  initialFetchEffects 3 false
  = (true, [ {| useCurrentStartGoal := false; selectedFrom := EmptyString;
                selectedTo := EmptyString |} ]).
Proof. apply (proj2 (initial_fetch_happens_once 3)). lia. Defined.

End PageMore.
(** * The page and the map together *)

Module Together.
Import RouteMap RouteMapFacts RouteMapMore Page PageFacts PageMore.

Section Drawn.
Context (byKey : gmap string IndexEntry) (byId : NodeObject).

(** The index of a pair only shows in the key of its segment. *)
Lemma drawn_emittedFor_index i j u v :
  drawn <$> emittedFor byKey byId i u v = drawn <$> emittedFor byKey byId j u v.
Proof.
  destruct (decide (u = v)) as [->|Hne]; [by rewrite !emittedFor_same|].
  destruct (byKey !! buildEdgeKey u v) as [e|] eqn:He.
  - by rewrite !(emittedFor_found _ _ _ u v e).
  - destruct (truthyValue (get byId u)) eqn:Hf;
      [destruct (truthyValue (get byId v)) eqn:Ht|].
    + by rewrite !(emittedFor_fallback _ _ _ u v).
    + by rewrite !emittedFor_skip by auto.
    + by rewrite !emittedFor_skip by auto.
Qed.

Lemma drawn_emittedFrom_index i j (path : list NodeId) :
  drawn <$> emittedFrom byKey byId i path = drawn <$> emittedFrom byKey byId j path.
Proof.
  revert i j. induction path as [|u [|v rest] IH]; intros i j; [done..|].
  rewrite !emittedFrom_cons, !fmap_app.
  by rewrite (drawn_emittedFor_index i j), (IH (S i) (S j)).
Qed.

Lemma drawn_keepChanges (rest : list NodeId) (a : NodeId) i j :
  drawn <$> emittedFrom byKey byId i (a :: keepChanges (Some a) rest)
  = drawn <$> emittedFrom byKey byId j (a :: rest).
Proof.
  revert a i j. induction rest as [|b rest IH]; intros a i j; [done|].
  cbn [keepChanges]. rewrite (emittedFrom_cons _ _ j a b).
  case_bool_decide as Hab.
  - injection Hab as ->. rewrite emittedFor_same. apply IH.
  - rewrite emittedFrom_cons, !fmap_app.
    by rewrite (drawn_emittedFor_index i j), (IH b (S i) (S j)).
Qed.

Lemma emittedFor_one i u v :
  u ≠ v → is_Some (byId !! u) → is_Some (byId !! v) →
  length (emittedFor byKey byId i u v) = 1.
Proof.
  intros Hne Hf%lookup_truthy Ht%lookup_truthy.
  destruct (byKey !! buildEdgeKey u v) as [e|] eqn:He.
  - by rewrite (emittedFor_found _ _ i u v e).
  - by rewrite (emittedFor_fallback _ _ i u v).
Qed.

Lemma emittedFrom_all i (path : list NodeId) :
  (∀ k a b, path !! k = Some a → path !! S k = Some b → a ≠ b) →
  (∀ id, id ∈ path → is_Some (byId !! id)) →
  length (emittedFrom byKey byId i path) = length path - 1.
Proof.
  revert i. induction path as [|u [|v rest] IH]; intros i Hadj Hknown; [done..|].
  rewrite emittedFrom_cons, length_app.
  rewrite emittedFor_one;
    [|by apply (Hadj 0)|apply Hknown; left|apply Hknown; right; left].
  rewrite IH.
  - cbn [length]. lia.
  - intros k a b. apply (Hadj (S k)).
  - intros id Hid. apply Hknown. by right.
Qed.
End Drawn.

Lemma drawn_summaryPath byKey byId (r : Route) :
  drawn <$> emittedFrom byKey byId 0 (route_path r)
  = drawn <$> emittedFrom byKey byId 0 (summaryPath (Some r)).
Proof.
  rewrite summaryPath_keepChanges.
  destruct (route_path r) as [|a rest]; [done|].
  cbn [keepChanges]. rewrite bool_decide_eq_false_2 by done.
  symmetry. apply drawn_keepChanges.
Qed.

(** X22.  The map resolves the raw route path, the summary shows the
    cleaned-up one; both give the same polylines, in the same order, with
    the same end points and positions. *)
Theorem map_draws_the_summary_path nodes edges (r : Route) :
  ∃ raw clean,
    buildRouteSegments nodes edges (route_path r) = Returned raw
    ∧ buildRouteSegments nodes edges (summaryPath (Some r)) = Returned clean
    ∧ drawn <$> raw = drawn <$> clean.
Proof.
  eexists _, _.
  split; [apply buildRouteSegments_unrolled|].
  split; [apply buildRouteSegments_unrolled|].
  apply drawn_summaryPath.
Qed.

(** X23.  When every identifier of the route path is a known node, the
    number of segments drawn for the route equals the number of legs shown
    in the summary: one less than the length of the summary path. *)
Theorem legs_count_the_segments nodes edges (r : Route) :
  (∀ id, id ∈ route_path r → is_Some (nodesById nodes !! id)) →
  ∃ segments,
    buildRouteSegments nodes edges (route_path r) = Returned segments
    ∧ length segments = length (summaryPath (Some r)) - 1.
Proof.
  intros Hknown. eexists. split; [apply buildRouteSegments_unrolled|].
  rewrite <- (length_fmap drawn), drawn_summaryPath, length_fmap.
  apply emittedFrom_all.
  - intros k a b. rewrite summaryPath_keepChanges. apply keepChanges_no_repeat.
  - intros id Hid. apply Hknown.
    apply (sublist_subseteq (summaryPath (Some r))); [|exact Hid].
    rewrite summaryPath_keepChanges. apply keepChanges_sublist.
Qed.

Lemma legs_count_the_segments_witness :
  let nodes := [mkNode "A" 10 20 None; mkNode "B" 30 40 None] in
  let r := mkRoute ["A"; "A"; "B"; "A"] None None 0 0 None None in
  ∃ segments,
    buildRouteSegments nodes [] (route_path r) = Returned segments
    ∧ length segments = length (summaryPath (Some r)) - 1.
Proof.
  intros nodes r.
  apply (legs_count_the_segments nodes [] r).
  intros id Hid. cbn in Hid.
  repeat (apply elem_of_cons in Hid as [->|Hid]; [by eexists|]).
  by apply not_elem_of_nil in Hid.
Defined.

End Together.
